(** * Xcode project identifier-collision repair: model and verification

    A shallow embedding of the three repair scripts
    ([fix_xcode_uuid_collisions.py], [fix_xcode_uuid_precise.py] and
    [fix_infoplist_conflict.py]) together with the properties their
    specification states about them.

    A document is the text of [project.pbxproj].  It is modelled as a
    [string], read as the sequence of its UTF-8 bytes: every pattern the
    scripts search for is pure ASCII, and UTF-8 never reuses an ASCII byte
    inside a multi-byte sequence, so searching, counting and replacing give
    the same result on the bytes as on Python's code points. *)

From Stdlib Require Import String Ascii ZArith Lia.
From Stdlib.Strings Require Import Byte.
From stdpp Require Import base option list gmap sets strings.

Local Open Scope string_scope.

(** ** Python [str] primitives *)

Module PyStr.

(** [s[n:]] *)
Fixpoint drop (n : nat) (s : string) : string :=
  match n, s with
  | S k, String _ s' => drop k s'
  | _, _ => s
  end.

(** [s[:n]] *)
Fixpoint take (n : nat) (s : string) : string :=
  match n, s with
  | S k, String c s' => String c (take k s')
  | _, _ => ""
  end.

(** [s.startswith(p)] *)
Fixpoint startswith (p s : string) : bool :=
  match p, s with
  | "", _ => true
  | String a p', String b s' => if decide (a = b) then startswith p' s' else false
  | String _ _, "" => false
  end.

(** [p in s] for a non-empty [p] (every pattern of the scripts is). *)
Fixpoint contains (p s : string) : bool :=
  startswith p s ||
  match s with
  | "" => false
  | String _ s' => contains p s'
  end.

(** [s.count(p)] for a non-empty [p]: occurrences are counted from left
    to right without overlap; [skip] is the number of characters still
    covered by the occurrence just counted. *)
Fixpoint count_from (p : string) (skip : nat) (s : string) : nat :=
  match s with
  | "" => 0
  | String _ s' =>
      match skip with
      | S k => count_from p k s'
      | O => if startswith p s
             then S (count_from p (String.length p - 1) s')
             else count_from p 0 s'
      end
  end.

Definition count (p s : string) : nat := count_from p 0 s.

(** [s.replace(old, new)] for a non-empty [old]: every occurrence found
    scanning from left to right, without overlap, is replaced. *)
Fixpoint replace_from (old new : string) (skip : nat) (s : string) : string :=
  match s with
  | "" => ""
  | String c s' =>
      match skip with
      | S k => replace_from old new k s'
      | O => if startswith old s
             then new ++ replace_from old new (String.length old - 1) s'
             else String c (replace_from old new 0 s')
      end
  end.

(** [s.replace("", new)] puts [new] before every character and at the end. *)
Fixpoint replace_empty (new s : string) : string :=
  match s with
  | "" => new
  | String c s' => new ++ String c (replace_empty new s')
  end.

Definition replace (old new s : string) : string :=
  match old with
  | "" => replace_empty new s
  | _ => replace_from old new 0 s
  end.

(** [s.replace(old, new, 1)] for a non-empty [old]. *)
Fixpoint replace_first (old new s : string) : string :=
  match s with
  | "" => ""
  | String c s' =>
      if startswith old s
      then new ++ drop (String.length old) s
      else String c (replace_first old new s')
  end.

(** Index of the last occurrence of [p] in [s] ([s.rfind(p)]); [i] is the
    index of the first character of [s] and [best] the last hit so far. *)
Fixpoint rfind_from (p : string) (i : nat) (best : option nat) (s : string)
  : option nat :=
  match s with
  | "" => best
  | String _ s' =>
      rfind_from p (S i) (if startswith p s then Some i else best) s'
  end.

Definition rfind (p s : string) : option nat := rfind_from p 0 None s.

(** The longest prefix of [s] free of [stop], and what follows the first
    [stop]; [None] when [s] holds no [stop]. *)
Fixpoint span_until (stop : ascii) (s : string) : option (string * string) :=
  match s with
  | "" => None
  | String c s' =>
      if decide (c = stop) then Some ("", s')
      else match span_until stop s' with
           | Some (body, rest) => Some (String c body, rest)
           | None => None
           end
  end.

(** [bytes.hex()]: two lowercase hexadecimal digits per byte. *)
Definition hex_digit (n : N) : ascii :=
  match n with
  | 0%N => "0" | 1%N => "1" | 2%N => "2" | 3%N => "3"
  | 4%N => "4" | 5%N => "5" | 6%N => "6" | 7%N => "7"
  | 8%N => "8" | 9%N => "9" | 10%N => "a" | 11%N => "b"
  | 12%N => "c" | 13%N => "d" | 14%N => "e" | _ => "f"
  end%char.

Fixpoint hex (bs : list byte) : string :=
  match bs with
  | [] => ""
  | b :: bs' =>
      String (hex_digit (Byte.to_N b / 16))
        (String (hex_digit (Byte.to_N b mod 16)) (hex bs'))
  end.

(** [str.upper()] on the ASCII range. *)
Definition upper_char (c : ascii) : ascii :=
  let n := N_of_ascii c in
  if ((97 <=? n) && (n <=? 122))%N then ascii_of_N (n - 32) else c.

Fixpoint upper (s : string) : string :=
  match s with
  | "" => ""
  | String c s' => String (upper_char c) (upper s')
  end.

End PyStr.

(** ** The regular expressions of the scripts *)

Module Re.
Import PyStr.

(** The character class [[A-F0-9]]. *)
Definition uuid_char (c : ascii) : bool :=
  let n := N_of_ascii c in
  (((65 <=? n) && (n <=? 70)) || ((48 <=? n) && (n <=? 57)))%N.

(** [[A-F0-9]{n}] matches at the start of [s]. *)
Fixpoint uuid_chars (n : nat) (s : string) : bool :=
  match n with
  | O => true
  | S k => match s with
           | "" => false
           | String c s' => uuid_char c && uuid_chars k s'
           end
  end.

(** [re.findall(r'[A-F0-9]{24}', s)]: the scan tries every position from
    left to right and resumes after the end of each match. *)
Fixpoint findall_uuid_from (skip : nat) (s : string) : list string :=
  match s with
  | "" => []
  | String _ s' =>
      match skip with
      | S k => findall_uuid_from k s'
      | O => if uuid_chars 24 s
             then take 24 s :: findall_uuid_from 23 s'
             else findall_uuid_from 0 s'
      end
  end.

Definition findall_uuid (s : string) : list string := findall_uuid_from 0 s.

(** [re.findall(r'([A-F0-9]{24}) = {', s)]: the list of the group. *)
Fixpoint findall_definition_from (skip : nat) (s : string) : list string :=
  match s with
  | "" => []
  | String _ s' =>
      match skip with
      | S k => findall_definition_from k s'
      | O => if uuid_chars 24 s && startswith " = {" (drop 24 s)
             then take 24 s :: findall_definition_from 27 s'
             else findall_definition_from 0 s'
      end
  end.

Definition findall_definition (s : string) : list string :=
  findall_definition_from 0 s.

(** [re.search("(OLD = {[^}]+isa = PBXGroup[^}]+})", s)], group 1.
    Neither [[^}]+] can cross a closing brace, so a match at a position
    is the header, the whole run up to the first closing brace, and that
    brace; the run must hold [isa = PBXGroup] with at least one character
    on each side. *)
Definition group_definition_at (old s : string) : option string :=
  let header := old ++ " = {" in
  if startswith header s then
    match span_until "}"%char (drop (String.length header) s) with
    | Some (body, _) =>
        if contains "isa = PBXGroup"
             (drop 1 (take (String.length body - 1) body))
        then Some (header ++ body ++ "}")
        else None
    | None => None
    end
  else None.

Fixpoint search_group_definition (old s : string) : option string :=
  match group_definition_at old s with
  | Some m => Some m
  | None => match s with
            | "" => None
            | String _ s' => search_group_definition old s'
            end
  end.

(** One match, at the start of [s], of the pattern of
    [fix_parent_references]: group 1 is the header [children = (] and a
    greedy run of characters other than the closing parenthesis, then
    comes [OLD], and group 2 is a second such run and the closing
    parenthesis.  The result is the two groups and the length of the
    match.  The first run is greedy, so it stops before the last [OLD] of
    the text that ends at the first closing parenthesis. *)
Definition children_at (old s : string) : option (string * string * nat) :=
  let header := "children = (" in
  if startswith header s then
    match span_until ")"%char (drop (String.length header) s) with
    | Some (run, _) =>
        match rfind old run with
        | Some i =>
            Some (header ++ take i run,
                  drop (i + String.length old) run ++ ")",
                  String.length header + String.length run + 1)
        | None => None
        end
    | None => None
    end
  else None.

(** [re.findall] of that pattern: the list of the pairs of groups. *)
Fixpoint findall_children_from (old : string) (skip : nat) (s : string)
  : list (string * string) :=
  match s with
  | "" => []
  | String _ s' =>
      match skip with
      | S k => findall_children_from old k s'
      | O => match children_at old s with
             | Some (g1, g2, len) =>
                 (g1, g2) :: findall_children_from old (len - 1) s'
             | None => findall_children_from old 0 s'
             end
      end
  end.

Definition findall_children (old s : string) : list (string * string) :=
  findall_children_from old 0 s.

End Re.

(** ** The process environment

    Everything a run reads from outside the program: the bytes the
    operating system's entropy source delivers to [secrets.token_bytes],
    the order in which Python iterates over a set of strings, and the
    outcome of every file operation. *)

Module Os.
Import PyStr.

(** Outcome of opening a file for writing and writing a text to it; after
    a failed write the file holds the first [n] bytes of the text. *)
Inductive write_outcome : Type :=
| WriteOk
| OpenFails
| WriteFailsAfter (n : nat).

#[global] Instance write_outcome_eq_dec : EqDecision write_outcome.
Proof. solve_decision. Defined.

Record Env : Type := {
  entropy : nat → byte;
  set_order : gset string → list string;
  read_fails : bool;
  write_outcomes : nat → write_outcome;
  move_fails : nat → bool
}.

(** The four checks of [fix_project]. *)
Inductive check : Type :=
| Uniqueness
| ObjectReferences
| ProjectStructure
| XcodeFormat.

(** The status lines a run prints (the progress lines are left out). *)
Inductive line : Type :=
| NoCollisionsDetected
| StillDuplicates (n : nat)
| OrphanedReferences (ids : gset string)
| MissingSections (names : list string)
| InvalidHeader
| UnbalancedBraces (n : Z)
| UnbalancedParentheses (n : Z)
| ValidationFailed (c : check)
| ProjectSaved
| SaveError
| FailedToSave
| RollingBack
| RollbackSuccessful
| RollbackFailed
| FixCompleted
| CriticalError.

(** The files of the project directory and the counters of the run:
    [writes] counts the times this process put a content into
    [project.pbxproj], [drawn] the bytes of entropy consumed and [saves]
    the calls of [save_project]. *)
Record World : Type := {
  pbxproj : option string;
  pbxproj_tmp : option string;
  writes : nat;
  drawn : nat;
  saves : nat;
  stdout : list line
}.

(** The project directory when the process starts. *)
Definition boot (file tmp : option string) : World :=
  {| pbxproj := file; pbxproj_tmp := tmp; writes := 0; drawn := 0;
     saves := 0; stdout := [] |}.

Definition print (ls : list line) (w : World) : World :=
  {| pbxproj := pbxproj w; pbxproj_tmp := pbxproj_tmp w; writes := writes w;
     drawn := drawn w; saves := saves w; stdout := stdout w ++ ls |}.

(** [open(path, 'w').write(text)] on a file whose state is [file]:
    the new state of the file and whether the write went through. *)
Definition write_file (o : write_outcome) (text : string) (file : option string)
  : option string * bool :=
  match o with
  | WriteOk => (Some text, true)
  | OpenFails => (file, false)
  | WriteFailsAfter n => (Some (take n text), false)
  end.

(** [secrets.token_bytes(n)] when [pos] bytes were consumed before. *)
Definition token_bytes (env : Env) (n pos : nat) : list byte * nat :=
  (map (entropy env) (seq pos n), pos + n).

(** Result of a method that may raise, or may loop beyond the number of
    iterations the observer allows. *)
Inductive result (S A : Type) : Type :=
| Return (a : A) (s : S)
| Raise (s : S)
| OutOfFuel.
Arguments Return {S A} a s.
Arguments Raise {S A} s.
Arguments OutOfFuel {S A}.

Definition bind {S A B} (m : S → result S A) (k : A → S → result S B)
  : S → result S B :=
  fun s => match m s with
           | Return a s' => k a s'
           | Raise s' => Raise s'
           | OutOfFuel => OutOfFuel
           end.

(** [try: body except Exception: handler] *)
Definition try_except {S A} (body handler : S → result S A) : S → result S A :=
  fun s => match body s with
           | Raise s' => handler s'
           | r => r
           end.

End Os.

Notation "'do' x <- m 'in' k" := (Os.bind m (fun x => k))
  (at level 10, x name, m at level 100, k at level 200).
Notation "'run' m 'in' k" := (Os.bind m (fun _ => k))
  (at level 10, m at level 100, k at level 200).

(** ** [fix_xcode_uuid_collisions.py]: class [XcodeProjectFixer] *)

Module XcodeProjectFixer.
Import PyStr Re Os.

(** A value of [replacement_map]. *)
Record Replacement : Type := {
  old_uuid : string;
  new_group_uuid : string;
  group_name : string;
  associated_file : string
}.

(** The attributes of the object a run mutates. *)
Record Self : Type := {
  content : string;
  original_content : string;
  collision_map : list (string * Replacement)
}.

Record Machine : Type := { self : Self; world : World }.

Definition M (A : Type) : Type := Machine → result Machine A.

Definition ret {A} (a : A) : M A := fun m => Return a m.

Definition say (ls : list line) : M unit :=
  fun m => Return tt {| self := self m; world := print ls (world m) |}.

Definition set_content (c : string) : M unit :=
  fun m => Return tt
    {| self := {| content := c;
                  original_content := original_content (self m);
                  collision_map := collision_map (self m) |};
       world := world m |}.

Definition get_content : M string := fun m => Return (content (self m)) m.

(** [__init__] *)
Definition init : Self :=
  {| content := ""; original_content := ""; collision_map := [] |}.

(** The table [known_collisions], in the order it is written:
    identifier, group name, file. *)
Definition known_collisions : list (string * (string * string)) :=
  [ ("A1000001000000000000001A", ("Core", "StreamApp.swift"));
    ("A1000001000000000000008A", ("Onboarding", "MainTabView.swift"));
    ("A1000001000000000000007A", ("Components", "WalletConnectView.swift"));
    ("A1000001000000000000006E", ("Authentication", "AuthenticationView.swift"));
    ("A1000001000000000000006A", ("Views", "WorkSessionViewModel.swift"));
    ("A1000001000000000000005A", ("ViewModels", "ZKProofService.swift"));
    ("A1000001000000000000003E", ("Security", "BiometricAuthService.swift"));
    ("A1000001000000000000003A", ("Resources", "StreamColors.swift"));
    ("A1000001000000000000002E", ("Network", "APIService.swift"));
    ("A1000001000000000000002A", ("Models", "Attestation.swift")) ].

(** [generate_xcode_uuid]: 12 random bytes as 24 uppercase hex digits. *)
Definition generate_xcode_uuid (env : Env) (pos : nat) : string * nat :=
  let '(random_bytes, pos') := token_bytes env 12 pos in
  (upper (hex random_bytes), pos').

(** The [while] loop of [generate_unique_uuid_set]; [fuel] bounds the
    number of identifiers drawn. *)
Fixpoint uuid_set_loop (fuel : nat) (env : Env) (count : nat)
    (existing_uuids uuids : gset string) (pos : nat)
  : option (gset string * nat) :=
  if decide (size uuids < count) then
    match fuel with
    | O => None
    | S fuel' =>
        let '(uuid, pos') := generate_xcode_uuid env pos in
        if decide ((uuid ∉ existing_uuids) ∧ (uuid ∉ uuids))
        then uuid_set_loop fuel' env count existing_uuids ({[uuid]} ∪ uuids) pos'
        else uuid_set_loop fuel' env count existing_uuids uuids pos'
    end
  else Some (uuids, pos).

Definition generate_unique_uuid_set (fuel : nat) (env : Env) (count : nat)
    (existing_uuids : gset string) (pos : nat) : option (gset string * nat) :=
  uuid_set_loop fuel env count existing_uuids ∅ pos.

(** [load_project] *)
Definition load_project (env : Env) : M unit :=
  fun m =>
    if read_fails env then Raise m
    else match pbxproj (world m) with
         | Some text =>
             Return tt
               {| self := {| content := text; original_content := text;
                             collision_map := collision_map (self m) |};
                  world := world m |}
         | None => Raise m
         end.

(** The counting loop shared by [detect_collisions] and
    [validate_uuid_uniqueness]: [uuid_counts[uuid] += 1]. *)
Definition count_uuids (all_uuids : list string) : gmap string nat :=
  foldl (fun uuid_counts uuid =>
           <[uuid := default 0 (uuid_counts !! uuid) + 1]> uuid_counts)
        ∅ all_uuids.

(** [detect_collisions] *)
Definition detect_collisions (text : string) : gmap string nat :=
  let all_uuids := findall_uuid text in
  let uuid_counts := count_uuids all_uuids in
  filter (fun p : string * nat => 2 < p.2) uuid_counts.

(** The [for] loop of [generate_replacement_uuids]; [None] is the
    [IndexError] of [new_uuid_list[i]]. *)
Fixpoint build_replacement_map (i : nat)
    (known : list (string * (string * string))) (new_uuid_list : list string)
  : option (list (string * Replacement)) :=
  match known with
  | [] => Some []
  | (old, (name, file)) :: rest =>
      match new_uuid_list !! i with
      | None => None
      | Some new =>
          match build_replacement_map (S i) rest new_uuid_list with
          | None => None
          | Some replacement_map =>
              Some ((old, {| old_uuid := old; new_group_uuid := new;
                             group_name := name; associated_file := file |})
                    :: replacement_map)
          end
      end
  end.

Definition set_drawn (pos : nat) (m : Machine) : Machine :=
  {| self := self m;
     world := {| pbxproj := pbxproj (world m);
                 pbxproj_tmp := pbxproj_tmp (world m);
                 writes := writes (world m); drawn := pos;
                 saves := saves (world m); stdout := stdout (world m) |} |}.

(** [generate_replacement_uuids] *)
Definition generate_replacement_uuids (fuel : nat) (env : Env)
  : M (list (string * Replacement)) :=
  fun m =>
    let existing_uuids : gset string :=
      list_to_set (findall_uuid (content (self m))) in
    match generate_unique_uuid_set fuel env (length known_collisions)
            existing_uuids (drawn (world m)) with
    | None => OutOfFuel
    | Some (new_uuids, pos') =>
        let m' := set_drawn pos' m in
        let new_uuid_list := set_order env new_uuids in
        match build_replacement_map 0 known_collisions new_uuid_list with
        | None => Raise m'
        | Some replacement_map =>
            Return replacement_map
              {| self := {| content := content (self m');
                            original_content := original_content (self m');
                            collision_map := replacement_map |};
                 world := world m' |}
        end
    end.

(** One turn of the loop of [fix_group_definitions]. *)
Definition fix_group_definition (text : string) (entry : string * Replacement)
  : string :=
  let old := entry.1 in
  let new := new_group_uuid entry.2 in
  match search_group_definition old text with
  | Some matched => replace matched (replace_first old new matched) text
  | None => text
  end.

Definition fix_group_definitions : M unit :=
  fun m => set_content
             (foldl fix_group_definition (content (self m))
                    (collision_map (self m))) m.

(** One turn of the loop of [fix_parent_references]. *)
Definition fix_parent_reference (text : string) (entry : string * Replacement)
  : string :=
  let old := entry.1 in
  let new := new_group_uuid entry.2 in
  foldl (fun text (g : string * string) =>
           let old_children := "children = (" ++ g.1 ++ old ++ g.2 ++ ")" in
           let new_children := "children = (" ++ g.1 ++ new ++ g.2 ++ ")" in
           replace old_children new_children text)
        text (findall_children old text).

Definition fix_parent_references : M unit :=
  fun m => set_content
             (foldl fix_parent_reference (content (self m))
                    (collision_map (self m))) m.

(** [validate_uuid_uniqueness]: the result and the lines it prints. *)
Definition validate_uuid_uniqueness (text : string) : bool * list line :=
  let all_uuids := findall_uuid text in
  let unique_uuids : gset string := list_to_set all_uuids in
  if decide (length all_uuids = size unique_uuids) then (true, [])
  else (false, [StillDuplicates (length all_uuids - size unique_uuids)]).

(** [validate_object_references] *)
Definition validate_object_references (text : string) : bool * list line :=
  let object_definitions : gset string := list_to_set (findall_definition text) in
  let all_references : gset string := list_to_set (findall_uuid text) in
  let orphaned := all_references ∖ object_definitions in
  if decide (orphaned = ∅) then (true, [])
  else (false, [OrphanedReferences orphaned]).

Definition required_sections : list string :=
  [ "PBXBuildFile"; "PBXFileReference"; "PBXGroup"; "PBXNativeTarget";
    "PBXProject"; "PBXSourcesBuildPhase" ].

(** [validate_project_structure] *)
Definition validate_project_structure (text : string) : bool * list line :=
  let missing_sections :=
    List.filter
      (fun section => negb (contains ("/* Begin " ++ section ++ " section */") text))
      required_sections in
  match missing_sections with
  | [] => (true, [])
  | _ => (false, [MissingSections missing_sections])
  end.

(** [validate_xcode_format] *)
Definition validate_xcode_format (text : string) : bool * list line :=
  if negb (startswith "// !$*UTF8*$!" text) then (false, [InvalidHeader])
  else
    let brace_count := (Z.of_nat (count "{" text) - Z.of_nat (count "}" text))%Z in
    if decide (brace_count ≠ 0%Z) then (false, [UnbalancedBraces brace_count])
    else
      let paren_count := (Z.of_nat (count "(" text) - Z.of_nat (count ")" text))%Z in
      if decide (paren_count ≠ 0%Z) then (false, [UnbalancedParentheses paren_count])
      else (true, []).

(** Runs a check on [self.content] and prints its lines. *)
Definition checking (v : string → bool * list line) : M bool :=
  fun m => let '(ok, ls) := v (content (self m)) in
           Return ok {| self := self m; world := print ls (world m) |}.

(** [save_project]: the text goes to [project.pbxproj.tmp], which is then
    moved over [project.pbxproj]; every exception is caught. *)
Definition save_project (env : Env) : M bool :=
  fun m =>
    let w := world m in
    let k := saves w in
    let '(tmp, written) :=
      write_file (write_outcomes env k) (content (self m)) (pbxproj_tmp w) in
    if written && negb (move_fails env k) then
      Return true
        {| self := self m;
           world := {| pbxproj := Some (content (self m)); pbxproj_tmp := None;
                       writes := S (writes w); drawn := drawn w;
                       saves := S k; stdout := stdout w ++ [ProjectSaved] |} |}
    else
      Return false
        {| self := self m;
           world := {| pbxproj := pbxproj w; pbxproj_tmp := tmp;
                       writes := writes w; drawn := drawn w;
                       saves := S k; stdout := stdout w ++ [SaveError] |} |}.

(** [rollback] *)
Definition rollback (env : Env) : M unit :=
  run say [RollingBack] in
  run (fun m => set_content (original_content (self m)) m) in
  do saved <- save_project env in
  if saved then say [RollbackSuccessful] else say [RollbackFailed].

(** Phases 4 and 5 of [fix_project]: the four checks, then the save. *)
Definition validate_and_save (env : Env) : M bool :=
  do unique <- checking validate_uuid_uniqueness in
  if negb unique then
    run say [ValidationFailed Uniqueness] in
    run rollback env in ret false
  else
  do closed <- checking validate_object_references in
  if negb closed then
    run say [ValidationFailed ObjectReferences] in
    run rollback env in ret false
  else
  do structured <- checking validate_project_structure in
  if negb structured then
    run say [ValidationFailed ProjectStructure] in
    run rollback env in ret false
  else
  do well_formed <- checking validate_xcode_format in
  if negb well_formed then
    run say [ValidationFailed XcodeFormat] in
    run rollback env in ret false
  else
  do saved <- save_project env in
  if negb saved then
    run say [FailedToSave] in
    run rollback env in ret false
  else
    run say [FixCompleted] in ret true.

(** Phases 2 and 3 of [fix_project]: the replacements and the rewrite. *)
Definition generate_and_apply (fuel : nat) (env : Env) : M unit :=
  run generate_replacement_uuids fuel env in
  run fix_group_definitions in
  fix_parent_references.

(** [fix_project] *)
Definition fix_project (fuel : nat) (env : Env) : M bool :=
  try_except
    (run load_project env in
     do text <- get_content in
     let collisions := detect_collisions text in
     if decide (collisions = ∅) then
       run say [NoCollisionsDetected] in ret true
     else
       run generate_and_apply fuel env in
       validate_and_save env)
    (run say [CriticalError] in
     run rollback env in ret false).

(** The state in which [main] starts a run on a project directory [w]. *)
Definition start (w : World) : Machine := {| self := init; world := w |}.

End XcodeProjectFixer.

(** ** [fix_xcode_uuid_precise.py]: class [PreciseXcodeProjectFixer] *)

Module PreciseXcodeProjectFixer.
Import PyStr Re Os.

Record Self : Type := { content : string; original_content : string }.

Record Machine : Type := { self : Self; world : World }.

Definition M (A : Type) : Type := Machine → result Machine A.

Definition ret {A} (a : A) : M A := fun m => Return a m.

Definition set_content (c : string) : M unit :=
  fun m => Return tt
    {| self := {| content := c; original_content := original_content (self m) |};
       world := world m |}.

Definition init : Self := {| content := ""; original_content := "" |}.

(** The table [collision_fixes], in the order it is written: identifier
    and [group_name] (the field [line_pattern] is never read). *)
Definition collision_fixes : list (string * string) :=
  [ ("A1000001000000000000001A", "Core");
    ("A1000001000000000000002A", "Models");
    ("A1000001000000000000002E", "Network");
    ("A1000001000000000000003A", "Resources");
    ("A1000001000000000000003E", "Security");
    ("A1000001000000000000005A", "ViewModels");
    ("A1000001000000000000006A", "Views");
    ("A1000001000000000000006E", "Authentication");
    ("A1000001000000000000007A", "Components");
    ("A1000001000000000000008A", "Onboarding") ].

(** [collision_fixes[old_uuid]["group_name"]]; [None] is the [KeyError]. *)
Fixpoint group_name_of (table : list (string * string)) (old : string)
  : option string :=
  match table with
  | [] => None
  | (k, name) :: rest => if decide (k = old) then Some name else group_name_of rest old
  end.

Definition generate_xcode_uuid (env : Env) (pos : nat) : string * nat :=
  let '(random_bytes, pos') := token_bytes env 12 pos in
  (upper (hex random_bytes), pos').

(** [load_project] *)
Definition load_project (env : Env) : M unit :=
  fun m =>
    if read_fails env then Raise m
    else match pbxproj (world m) with
         | Some text =>
             Return tt {| self := {| content := text; original_content := text |};
                          world := world m |}
         | None => Raise m
         end.

(** The [while True] loop of [generate_replacement_uuids]. *)
Fixpoint mint (fuel : nat) (env : Env) (existing_uuids : gset string) (pos : nat)
  : option (string * nat) :=
  match fuel with
  | O => None
  | S fuel' =>
      let '(new_uuid, pos') := generate_xcode_uuid env pos in
      if decide (new_uuid ∉ existing_uuids) then Some (new_uuid, pos')
      else mint fuel' env existing_uuids pos'
  end.

(** The [for] loop of [generate_replacement_uuids]. *)
Fixpoint replacement_loop (fuel : nat) (env : Env) (fixes : list (string * string))
    (existing_uuids : gset string) (pos : nat)
  : option (list (string * string) * nat) :=
  match fixes with
  | [] => Some ([], pos)
  | (old_uuid, _) :: rest =>
      match mint fuel env existing_uuids pos with
      | None => None
      | Some (new_uuid, pos') =>
          match replacement_loop fuel env rest ({[new_uuid]} ∪ existing_uuids) pos' with
          | None => None
          | Some (replacement_map, pos'') =>
              Some ((old_uuid, new_uuid) :: replacement_map, pos'')
          end
      end
  end.

(** [generate_replacement_uuids] on a text, from entropy position [pos]. *)
Definition generate_replacement_uuids (fuel : nat) (env : Env) (text : string)
    (pos : nat) : option (list (string * string) * nat) :=
  replacement_loop fuel env collision_fixes (list_to_set (findall_uuid text)) pos.

(** One turn of the loop of [fix_group_definitions]. *)
Definition fix_group_definition (text : string) (entry : string * string)
  : option string :=
  match group_name_of collision_fixes entry.1 with
  | None => None
  | Some name =>
      let old_line_pattern := entry.1 ++ " /* " ++ name ++ " */ = {" in
      let new_line_pattern := entry.2 ++ " /* " ++ name ++ " */ = {" in
      Some (if contains old_line_pattern text
            then replace old_line_pattern new_line_pattern text
            else text)
  end.

(** One turn of the loop of [fix_parent_references]. *)
Definition fix_parent_reference (text : string) (entry : string * string)
  : option string :=
  match group_name_of collision_fixes entry.1 with
  | None => None
  | Some name =>
      let old_ref_pattern := entry.1 ++ " /* " ++ name ++ " */" in
      let new_ref_pattern := entry.2 ++ " /* " ++ name ++ " */" in
      Some (if decide (0 < count old_ref_pattern text)
            then replace old_ref_pattern new_ref_pattern text
            else text)
  end.

(** A loop over [replacement_map] that rewrites [self.content]. *)
Fixpoint rewrite_all (step : string → string * string → option string)
    (text : string) (replacement_map : list (string * string)) : option string :=
  match replacement_map with
  | [] => Some text
  | entry :: rest =>
      match step text entry with
      | None => None
      | Some text' => rewrite_all step text' rest
      end
  end.

Definition rewriting (step : string → string * string → option string)
    (replacement_map : list (string * string)) : M unit :=
  fun m => match rewrite_all step (content (self m)) replacement_map with
           | Some text => set_content text m
           | None => Raise m
           end.

Definition fix_group_definitions := rewriting fix_group_definition.
Definition fix_parent_references := rewriting fix_parent_reference.

(** [validate_fix] *)
Definition validate_fix (text : string) : bool :=
  let remaining_collisions :=
    List.filter (fun old_uuid => bool_decide (2 < count old_uuid text))
                (map fst collision_fixes) in
  match remaining_collisions with
  | [] => true
  | _ => false
  end.

(** [save_project]: the text is written over [project.pbxproj] in place. *)
Definition save_project (env : Env) : M bool :=
  fun m =>
    let w := world m in
    let k := saves w in
    let '(file, written) :=
      write_file (write_outcomes env k) (content (self m)) (pbxproj w) in
    Return written
      {| self := self m;
         world := {| pbxproj := file; pbxproj_tmp := pbxproj_tmp w;
                     writes := match write_outcomes env k with
                               | OpenFails => writes w
                               | _ => S (writes w)
                               end;
                     drawn := drawn w; saves := S k;
                     stdout := stdout w ++ [if written then ProjectSaved else SaveError] |} |}.

(** [rollback] *)
Definition rollback (env : Env) : M unit :=
  run (fun m => set_content (original_content (self m)) m) in
  run save_project env in ret tt.

Definition minting (fuel : nat) (env : Env) : M (list (string * string)) :=
  fun m =>
    match generate_replacement_uuids fuel env (content (self m)) (drawn (world m)) with
    | None => OutOfFuel
    | Some (replacement_map, pos') =>
        Return replacement_map
          {| self := self m;
             world := {| pbxproj := pbxproj (world m);
                         pbxproj_tmp := pbxproj_tmp (world m);
                         writes := writes (world m); drawn := pos';
                         saves := saves (world m); stdout := stdout (world m) |} |}
    end.

(** [fix_project] *)
Definition fix_project (fuel : nat) (env : Env) : M bool :=
  try_except
    (run load_project env in
     do replacement_map <- minting fuel env in
     run fix_group_definitions replacement_map in
     run fix_parent_references replacement_map in
     do valid <- (fun m => Return (validate_fix (content (self m))) m) in
     if negb valid then run rollback env in ret false
     else
     do saved <- save_project env in
     if negb saved then run rollback env in ret false
     else ret true)
    (run rollback env in ret false).

Definition start (w : World) : Machine := {| self := init; world := w |}.

End PreciseXcodeProjectFixer.

(** ** [fix_infoplist_conflict.py] *)

Module InfoPlist.
Import PyStr Os.

Definition infoplist_buildfile_line : string :=
  "0DD18F0E2E7FBB1900A893D7 /* Info.plist in Resources */ = {isa = PBXBuildFile; fileRef = 0DD18F062E7FBB1900A893D7 /* Info.plist */; };".

Definition infoplist_resource_line : string :=
  "0DD18F0E2E7FBB1900A893D7 /* Info.plist in Resources */,".

Definition infoplist_setting : string := "INFOPLIST_FILE = StreamApp/Info.plist;".

Definition newline : string := String "010"%char "".
Definition tab : string := String "009"%char "".

(** The shape of edits 1 and 2: the line is removed when it is there. *)
Definition remove_line (literal_line text : string) : string :=
  if contains literal_line text then replace literal_line "" text else text.

(** The shape of edits 3 and 4. *)
Definition replace_token (literal_old literal_new text : string) : string :=
  replace literal_old literal_new text.

Definition remove_buildfile_entry : string → string :=
  remove_line infoplist_buildfile_line.

Definition remove_resource_entry : string → string :=
  remove_line infoplist_resource_line.

Definition disable_generation : string → string :=
  replace_token "GENERATE_INFOPLIST_FILE = YES;" "GENERATE_INFOPLIST_FILE = NO;".

Definition add_infoplist_setting : string → string :=
  replace_token "GENERATE_INFOPLIST_FILE = NO;"
    ("GENERATE_INFOPLIST_FILE = NO;" ++ newline ++ tab ++ tab ++ tab ++ tab
       ++ infoplist_setting).



End InfoPlist.

(** ** Notions of the specification *)

Module Spec.
Import PyStr Re Os.

(** Number of occurrences of the identifier token [uuid] in a document:
    the tokens are those of [re.findall(r'[A-F0-9]{24}', text)]. *)
Definition occurrence_count (text uuid : string) : nat :=
  length (filter (fun token => token = uuid) (findall_uuid text)).

(** Number of definition headers [uuid = {] of a document. *)
Definition definition_count (text uuid : string) : nat :=
  length (filter (fun token => token = uuid) (findall_definition text)).


(** An identifier token of the shape the generator must produce. *)
Definition is_identifier (uuid : string) : Prop :=
  String.length uuid = 24 ∧ uuid_chars 24 uuid = true.

(** Python lists a set in some order, each member once. *)
Definition sound_order (env : Env) : Prop :=
  ∀ X : gset string, set_order env X ≡ₚ elements X.

(** The old-to-new pairs of a [collision_map]. *)
Definition mapping (collision_map : list (string * XcodeProjectFixer.Replacement))
  : list (string * string) :=
  map (fun entry => (entry.1, XcodeProjectFixer.new_group_uuid entry.2))
      collision_map.

(** Distinct old identifiers receive distinct new identifiers. *)
Definition one_to_one (pairs : list (string * string)) : Prop :=
  ∀ old1 new1 old2 new2,
    (old1, new1) ∈ pairs → (old2, new2) ∈ pairs → old1 ≠ old2 → new1 ≠ new2.

(** No new identifier is an old identifier of the mapping. *)
Definition new_apart_from_old (pairs : list (string * string)) : Prop :=
  ∀ new, new ∈ pairs.*2 → new ∉ pairs.*1.

(** No new identifier is a token of the document. *)
Definition new_apart_from_tokens (text : string) (pairs : list (string * string))
  : Prop :=
  ∀ new, new ∈ pairs.*2 → new ∉ findall_uuid text.

(** No new identifier is an old identifier that occurs in the document. *)
Definition new_apart_from_present_old (text : string)
    (pairs : list (string * string)) : Prop :=
  ∀ new old, new ∈ pairs.*2 → old ∈ pairs.*1 → old ∈ findall_uuid text → new ≠ old.

(** The four checks of [fix_project] pass on a document. *)
Definition all_checks_pass (text : string) : Prop :=
  (XcodeProjectFixer.validate_uuid_uniqueness text).1 = true
  ∧ (XcodeProjectFixer.validate_object_references text).1 = true
  ∧ (XcodeProjectFixer.validate_project_structure text).1 = true
  ∧ (XcodeProjectFixer.validate_xcode_format text).1 = true.

(** The [k]-th save of a run goes through. *)
Definition save_succeeds (env : Env) (k : nat) : Prop :=
  write_outcomes env k = WriteOk ∧ move_fails env k = false.

(** The effect of [rollback] on [project.pbxproj] when its save is the
    [k]-th of the run, [original] is the text read at load time, and
    before it the file was [file] after [n] writes. *)
Definition rolled_back (env : Env) (k : nat) (original : string)
    (file : option string) (n : nat) (after : World) : Prop :=
  if decide (save_succeeds env k)
  then pbxproj after = Some original ∧ writes after = S n
  else pbxproj after = file ∧ writes after = n.

(** The lines the checks print about what they found. *)
Definition diagnostic (l : line) : Prop :=
  match l with
  | StillDuplicates _ | OrphanedReferences _ | MissingSections _
  | InvalidHeader | UnbalancedBraces _ | UnbalancedParentheses _ => True
  | _ => False
  end.

(** The lines that carry no verdict on the run. *)
Definition quiet (l : line) : Prop :=
  diagnostic l
  ∨ l ∈ [RollingBack; ProjectSaved; SaveError; RollbackSuccessful;
         RollbackFailed; FailedToSave; CriticalError].

(** How a run of [XcodeProjectFixer.fix_project] that started on a
    project directory holding [file] can end: its result and the project
    directory it leaves. *)
Inductive run_ends (env : Env) (file tmp : option string) : bool → World → Prop :=
| ends_clean text :
    file = Some text
    → XcodeProjectFixer.detect_collisions text = ∅
    → run_ends env file tmp true (print [NoCollisionsDetected] (boot file tmp))
| ends_committed text text' w' :
    file = Some text
    → XcodeProjectFixer.detect_collisions text ≠ ∅
    → all_checks_pass text'
    → save_succeeds env 0
    → pbxproj w' = Some text'
    → writes w' = 1
    → FixCompleted ∈ stdout w'
    → (∀ c, ValidationFailed c ∉ stdout w')
    → run_ends env file tmp true w'
| ends_rejected text c w' :
    file = Some text
    → XcodeProjectFixer.detect_collisions text ≠ ∅
    → ValidationFailed c ∈ stdout w'
    → FixCompleted ∉ stdout w'
    → rolled_back env 0 text file 0 w'
    → run_ends env file tmp false w'
| ends_aborted w' :
    FixCompleted ∉ stdout w'
    → (∀ c, ValidationFailed c ∉ stdout w')
    → run_ends env file tmp false w'.

(** The character [c] occurs in [s]. *)
Fixpoint occurs (c : ascii) (s : string) : bool :=
  match s with
  | "" => false
  | String a s' => if decide (a = c) then true else occurs c s'
  end.

(** Number of characters of [s] equal to [c]. *)
Fixpoint char_count (c : ascii) (s : string) : nat :=
  match s with
  | "" => 0
  | String a s' => if decide (a = c) then S (char_count c s') else char_count c s'
  end.

(** Every identifier of a batch has the shape of an identifier and is
    outside [existing]. *)
Definition minted (existing uuids : gset string) : Prop :=
  ∀ u, u ∈ uuids → is_identifier u ∧ (u ∉ existing).

(** The first [n] identifiers [generate_xcode_uuid] delivers when [pos]
    bytes of entropy were consumed before. *)
Fixpoint draws (env : Env) (pos n : nat) : list string :=
  match n with
  | O => []
  | S k =>
      let '(uuid, pos') := XcodeProjectFixer.generate_xcode_uuid env pos in
      uuid :: draws env pos' k
  end.

End Spec.

(** ** Sample documents and environments *)

Module Samples.
Import PyStr Re Os.

(** Two objects, each defined once and referenced once by the other. *)
Definition two_linked_objects : string :=
  "AAAAAAAAAAAAAAAAAAAAAAAA = { children = ( BBBBBBBBBBBBBBBBBBBBBBBB ); }; BBBBBBBBBBBBBBBBBBBBBBBB = { parent = AAAAAAAAAAAAAAAAAAAAAAAA; };".

(** An entropy source that delivers the bytes 0, 1, 2, ... in turn. *)
Definition counting_bytes (i : nat) : byte :=
  default x00 (Byte.of_N (N.of_nat (i mod 256))).

(** An entropy source whose first twelve bytes spell the first key of
    [known_collisions], followed by the counting bytes. *)
Definition key_first_bytes (i : nat) : byte :=
  nth i [xa1; x00; x00; x01; x00; x00; x00; x00; x00; x00; x00; x1a]
      (counting_bytes i).

(** A document with a valid header in which one identifier occurs three
    times and no key of [known_collisions] occurs. *)
Definition tripled : string :=
  "// !$*UTF8*$! AAAAAAAAAAAAAAAAAAAAAAAA = { AAAAAAAAAAAAAAAAAAAAAAAA AAAAAAAAAAAAAAAAAAAAAAAA }".

(** A project directory that holds [text] in [project.pbxproj], before
    the run has done anything. *)
Definition fresh_world (text : string) : World :=
  {| pbxproj := Some text; pbxproj_tmp := None; writes := 0; drawn := 0;
     saves := 0; stdout := [] |}.

(** The fixer just after [load_project] has read [text]. *)
Definition loaded (text : string) : XcodeProjectFixer.Machine :=
  {| XcodeProjectFixer.self :=
       {| XcodeProjectFixer.content := text;
          XcodeProjectFixer.original_content := text;
          XcodeProjectFixer.collision_map := [] |};
     XcodeProjectFixer.world := fresh_world text |}.

(** A copy of the build-file line of [fix_infoplist_conflict] split by
    another copy after its first character. *)
Definition nested_buildfile_line : string :=
  take 1 InfoPlist.infoplist_buildfile_line
  ++ InfoPlist.infoplist_buildfile_line
  ++ drop 1 InfoPlist.infoplist_buildfile_line.

(** A document on which a run commits, with the entropy that makes it
    do so.  Three group headers follow hexadecimal digits, so that the
    tokens of the scan start before the keys: one token occurs three
    times before the rewrite, and after it every token is the identifier
    of exactly one definition header. *)
Definition crafted : string :=
  "// !$*UTF8*$! /* Begin PBXBuildFile section */ /* Begin PBXFileReference section */ /* Begin PBXGroup section */ /* Begin PBXNativeTarget section */ /* Begin PBXProject section */ /* Begin PBXSourcesBuildPhase section */ 7A1000001000000000000002 = { isa = PBXProject; }; 7A1000001000000000000002E = { isa = PBXGroup; }; 7A1000001000000000000002A = { isa = PBXGroup; }; 0123456789ABCDEF012345A1000001000000000000001A = { isa = PBXGroup; };".

Definition crafted_bytes : list byte :=
  [ x77; x01; x23; x45; x67; x89; xab; xcd; xef; x01; x23; x45;
    x73; x00; x00; x00; x00; x00; x00; x00; x00; x00; x00; x00;
    x7c; x00; x00; x00; x00; x00; x00; x00; x00; x00; x00; x00;
    x75; x00; x00; x00; x00; x00; x00; x00; x00; x00; x00; x00;
    x7e; x00; x00; x00; x00; x00; x00; x00; x00; x00; x00; x00;
    x71; x00; x00; x00; x00; x00; x00; x00; x00; x00; x00; x00;
    x79; x00; x00; x00; x00; x00; x00; x00; x00; x00; x00; x00;
    x7a; x00; x00; x00; x00; x00; x00; x00; x00; x00; x00; x00;
    x70; x12; x34; x56; x78; x9a; xbc; xde; xf0; x12; x34; x57;
    x01; x23; x45; x67; x89; xab; xcd; xef; x01; x23; x45; x77 ].

Definition crafted_entropy (i : nat) : byte := nth i crafted_bytes x00.

(** A group whose identifier is the first key of [collision_fixes], with
    one reference to it. *)
Definition core_group : string :=
  "A1000001000000000000001A /* Core */ = { isa = PBXGroup; }; children = ( A1000001000000000000001A /* Core */, );".

(** An environment in which [project.pbxproj] cannot be read (a decoding
    error, say) and every write goes through. *)
Definition unreadable : Env :=
  {| entropy := counting_bytes; set_order := elements; read_fails := true;
     write_outcomes := fun _ => WriteOk; move_fails := fun _ => false |}.

(** No file operation fails and a set is listed in the order of
    [elements]. *)
Definition calm (source : nat → byte) : Env :=
  {| entropy := source; set_order := elements; read_fails := false;
     write_outcomes := fun _ => WriteOk; move_fails := fun _ => false |}.

End Samples.

(** * Verification *)

Import PyStr Re Os Spec.

Local Open Scope nat_scope.

(** ** Counting identifier tokens *)

Section Counting.

Implicit Types (l : list string) (m : gmap string nat) (u : string).

Let bump m u : gmap string nat := <[u := default 0 (m !! u) + 1]> m.

Lemma count_uuids_from l : ∀ m u,
  foldl bump m l !! u =
    match length (filter (fun v => v = u) l) with
    | O => m !! u
    | S k => Some (default 0 (m !! u) + S k)
    end.
Proof.
  induction l as [|v l IH]; intros m u; [done|].
  cbn [foldl]. rewrite IH. subst bump. cbn beta.
  destruct (decide (v = u)) as [->|Hne].
  - rewrite filter_cons_True by done. rewrite lookup_insert_eq. cbn.
    destruct (length (filter (fun v => v = u) l)); f_equal; lia.
  - rewrite filter_cons_False by done. by rewrite lookup_insert_ne.
Qed.

Lemma count_uuids_lookup l u :
  XcodeProjectFixer.count_uuids l !! u =
    match length (filter (fun v => v = u) l) with
    | O => None
    | S k => Some (S k)
    end.
Proof.
  unfold XcodeProjectFixer.count_uuids.
  rewrite (count_uuids_from l ∅ u). rewrite lookup_empty. done.
Qed.

End Counting.

Lemma detect_collisions_Some (text uuid : string) (c : nat) :
  XcodeProjectFixer.detect_collisions text !! uuid = Some c
  ↔ c = occurrence_count text uuid ∧ (2 < c)%nat.
Proof.
  unfold XcodeProjectFixer.detect_collisions, occurrence_count.
  rewrite map_lookup_filter_Some, count_uuids_lookup. cbn.
  destruct (length _) as [|k]; split.
  - intros [? _]. done.
  - intros [-> ?]. lia.
  - intros [[= <-] ?]. done.
  - intros [-> ?]. done.
Qed.

(** C7. The automatic detector reports exactly the identifiers that occur
    more than twice, each with its number of occurrences; an identifier with
    at most two occurrences is never reported. *)
Theorem detect_collisions_exact (text uuid : string) :
  (∀ c, XcodeProjectFixer.detect_collisions text !! uuid = Some c
        ↔ c = occurrence_count text uuid ∧ (2 < c)%nat)
  ∧ ((occurrence_count text uuid ≤ 2)%nat
     → XcodeProjectFixer.detect_collisions text !! uuid = None).
Proof.
  split; [apply detect_collisions_Some|].
  intros Hle. apply eq_None_not_Some. intros [c Hc].
  apply detect_collisions_Some in Hc. lia.
Qed.

Lemma detect_collisions_exact_witness :
  XcodeProjectFixer.detect_collisions Samples.tripled !! "AAAAAAAAAAAAAAAAAAAAAAAA"
    = Some 3
  ∧ XcodeProjectFixer.detect_collisions Samples.two_linked_objects
      !! "AAAAAAAAAAAAAAAAAAAAAAAA" = None.
Proof.
  split.
  - apply (proj1 (detect_collisions_exact Samples.tripled "AAAAAAAAAAAAAAAAAAAAAAAA")).
    split; [vm_compute; reflexivity|lia].
  - apply (proj2 (detect_collisions_exact Samples.two_linked_objects
                    "AAAAAAAAAAAAAAAAAAAAAAAA")).
    vm_compute. lia.
Defined.

(** ** The uniqueness check *)

Section Uniqueness.

Implicit Types (l : list string) (u : string).

Lemma size_list_to_set_le l : (size (list_to_set (C := gset string) l) ≤ length l)%nat.
Proof.
  induction l as [|x l IH]; cbn [list_to_set length].
  - by rewrite size_empty.
  - rewrite size_union_alt, size_singleton.
    assert (size (list_to_set (C := gset string) l ∖ {[x]}) ≤ size (list_to_set (C := gset string) l))%nat
      as Hsub.
    { apply subseteq_size, subseteq_difference_l. done. }
    lia.
Qed.

Lemma filter_eq_absent l u : u ∉ l → filter (fun v => v = u) l = [].
Proof.
  intros Hnin. destruct (filter _ l) as [|y t] eqn:E; [done|].
  assert (y ∈ filter (fun v => v = u) l) as Hy by (rewrite E; left).
  apply list_elem_of_filter in Hy as [-> ?]. done.
Qed.

Lemma length_eq_size_NoDup l :
  length l = size (list_to_set (C := gset string) l) ↔ NoDup l.
Proof.
  split; [|intros; symmetry; by apply size_list_to_set].
  induction l as [|x l IH]; [constructor|].
  cbn [list_to_set length]. intros Hlen.
  pose proof (size_list_to_set_le l) as Hle.
  destruct (decide (x ∈ l)) as [Hin|Hnin].
  - exfalso.
    assert ({[x]} ∪ list_to_set l = list_to_set (C := gset string) l) as Heq.
    { apply subseteq_union_1_L, singleton_subseteq_l, elem_of_list_to_set. done. }
    rewrite Heq in Hlen. lia.
  - rewrite size_union in Hlen
      by (apply disjoint_singleton_l; rewrite elem_of_list_to_set; done).
    rewrite size_singleton in Hlen.
    constructor; [done|]. apply IH. lia.
Qed.

Lemma NoDup_filter_length l :
  NoDup l ↔ ∀ u, (length (filter (fun v => v = u) l) ≤ 1)%nat.
Proof.
  induction l as [|x l IH].
  - split; [intros _ u; cbn; lia | constructor].
  - rewrite NoDup_cons, IH. split.
    + intros [Hnin Hall] u. destruct (decide (x = u)) as [->|Hne].
      * rewrite filter_cons_True by done. cbn.
        rewrite filter_eq_absent by done. cbn; lia.
      * rewrite filter_cons_False by done. apply Hall.
    + intros Hall. split.
      * intros Hin. specialize (Hall x).
        rewrite filter_cons_True in Hall by done. cbn in Hall.
        assert (x ∈ filter (fun v => v = x) l) as Hx
          by (apply list_elem_of_filter; done).
        destruct (filter _ l); [by apply elem_of_nil in Hx | cbn in Hall; lia].
      * intros u. specialize (Hall u).
        destruct (decide (x = u)).
        -- rewrite filter_cons_True in Hall by done. cbn in Hall. lia.
        -- by rewrite filter_cons_False in Hall.
Qed.

(** What the check of the program decides: no identifier token occurs
    twice anywhere in the document. *)
Lemma validate_uuid_uniqueness_true (text : string) :
  (XcodeProjectFixer.validate_uuid_uniqueness text).1 = true
  ↔ ∀ u, (occurrence_count text u ≤ 1)%nat.
Proof.
  unfold XcodeProjectFixer.validate_uuid_uniqueness, occurrence_count.
  rewrite <- NoDup_filter_length, <- length_eq_size_NoDup.
  case_decide; cbn; naive_solver.
Qed.

End Uniqueness.

(** C2. The uniqueness check of the program counts every identifier token,
    not only definition headers: on a document in which each of two
    identifiers is defined exactly once and referenced once, no identifier
    has more than one definition and the check still fails, reporting two
    duplicates. *)
Theorem validate_uuid_uniqueness_rejects_references :
  (∀ u, (definition_count Samples.two_linked_objects u ≤ 1)%nat)
  ∧ (∀ u, u ∈ findall_definition Samples.two_linked_objects
          → (definition_count Samples.two_linked_objects u
             < occurrence_count Samples.two_linked_objects u)%nat)
  ∧ XcodeProjectFixer.validate_uuid_uniqueness Samples.two_linked_objects
    = (false, [StillDuplicates 2]).
Proof.
  assert (findall_definition Samples.two_linked_objects
          = ["AAAAAAAAAAAAAAAAAAAAAAAA"; "BBBBBBBBBBBBBBBBBBBBBBBB"]) as Hdef
    by (vm_compute; reflexivity).
  assert (findall_uuid Samples.two_linked_objects
          = ["AAAAAAAAAAAAAAAAAAAAAAAA"; "BBBBBBBBBBBBBBBBBBBBBBBB";
             "BBBBBBBBBBBBBBBBBBBBBBBB"; "AAAAAAAAAAAAAAAAAAAAAAAA"]) as Hall
    by (vm_compute; reflexivity).
  split; [|split].
  - unfold definition_count. rewrite Hdef. apply NoDup_filter_length.
    apply NoDup_cons. split; [|apply NoDup_singleton].
    intros Hin. apply list_elem_of_singleton in Hin. discriminate.
  - unfold definition_count, occurrence_count. rewrite Hdef, Hall.
    intros u Hu.
    apply elem_of_cons in Hu as [->|Hu]; [vm_compute; lia|].
    apply list_elem_of_singleton in Hu as ->. vm_compute; lia.
  - vm_compute. reflexivity.
Qed.

(** ** The reference check *)





(** ** The identifier generator *)

Section Generator.

Variable env : Env.

Lemma hex_digit_upper (n : N) : uuid_char (upper_char (hex_digit n)) = true.
Proof.
  destruct n as [|p]; [reflexivity|].
  do 4 (destruct p as [p|p|]; try reflexivity).
Qed.

Lemma upper_hex_identifier (bs : list byte) :
  String.length (upper (hex bs)) = 2 * length bs
  ∧ uuid_chars (2 * length bs) (upper (hex bs)) = true.
Proof.
  induction bs as [|b bs [IHl IHc]]; [done|].
  cbn [hex upper String.length length].
  replace (2 * S (length bs)) with (S (S (2 * length bs))) by lia.
  split; [by rewrite IHl|].
  cbn [uuid_chars]. by rewrite !hex_digit_upper, IHc.
Qed.

Lemma generate_xcode_uuid_identifier (pos : nat) :
  is_identifier (XcodeProjectFixer.generate_xcode_uuid env pos).1
  ∧ (XcodeProjectFixer.generate_xcode_uuid env pos).2 = pos + 12.
Proof.
  unfold XcodeProjectFixer.generate_xcode_uuid, token_bytes, is_identifier.
  cbn [fst snd].
  pose proof (upper_hex_identifier (map (entropy env) (seq pos 12))) as [Hl Hc].
  rewrite length_map, length_seq in Hl, Hc. done.
Qed.

Variables (count : nat) (existing : gset string).

Lemma uuid_set_loop_sound (fuel : nat) : ∀ uuids pos res pos',
  XcodeProjectFixer.uuid_set_loop fuel env count existing uuids pos = Some (res, pos')
  → size uuids ≤ count → minted existing uuids
  → size res = count ∧ minted existing res.
Proof.
  induction fuel as [|fuel IH]; intros uuids pos res pos' Hrun Hle Hm;
    cbn [XcodeProjectFixer.uuid_set_loop] in Hrun.
  - case_decide; [done|]. injection Hrun as <- <-. split; [lia|done].
  - case_decide as Hlt; [|injection Hrun as <- <-; split; [lia|done]].
    pose proof (generate_xcode_uuid_identifier pos) as [Hid _].
    destruct (XcodeProjectFixer.generate_xcode_uuid env pos) as [uuid pos1].
    cbn [fst] in Hid. case_decide as Hfresh.
    + destruct Hfresh as [Hne Hnu]. eapply IH; [exact Hrun| |].
      * rewrite size_union by (apply disjoint_singleton_l; done).
        rewrite size_singleton. lia.
      * intros u [->%elem_of_singleton|Hu]%elem_of_union; [done|by apply Hm].
    + eapply IH; eauto.
Qed.

Lemma uuid_set_loop_terminates (n : nat) : ∀ uuids pos,
  count ≤ size uuids + size (list_to_set (draws env pos n) ∖ existing ∖ uuids)
  → ∃ res pos',
      XcodeProjectFixer.uuid_set_loop n env count existing uuids pos = Some (res, pos').
Proof.
  induction n as [|n IH]; intros uuids pos Hfresh;
    cbn [XcodeProjectFixer.uuid_set_loop draws] in *.
  - case_decide as Hlt; [|eauto]. exfalso.
    cbn [list_to_set] in Hfresh.
    rewrite !empty_difference_L, size_empty in Hfresh. lia.
  - case_decide as Hlt; [|eauto].
    destruct (XcodeProjectFixer.generate_xcode_uuid env pos) as [uuid pos1].
    cbn [list_to_set] in Hfresh. case_decide as Hnew.
    + destruct Hnew as [Hne Hnu]. apply IH.
      rewrite size_union by (apply disjoint_singleton_l; done).
      rewrite size_singleton.
      assert (({[uuid]} ∪ list_to_set (draws env pos1 n)) ∖ existing ∖ uuids
              ⊆ {[uuid]} ∪ list_to_set (draws env pos1 n) ∖ existing ∖ ({[uuid]} ∪ uuids))
        as Hsub.
      { intros u. rewrite !elem_of_difference, !elem_of_union, !elem_of_difference,
          !elem_of_singleton, !elem_of_union, !elem_of_singleton.
        destruct (decide (u = uuid)); tauto. }
      apply subseteq_size in Hsub.
      pose proof (size_union_alt ({[uuid]} : gset string)
        (list_to_set (draws env pos1 n) ∖ existing ∖ ({[uuid]} ∪ uuids))) as Hu.
      rewrite size_singleton in Hu.
      assert (size ((list_to_set (draws env pos1 n) ∖ existing ∖ ({[uuid]} ∪ uuids)) ∖ {[uuid]})
              ≤ size (list_to_set (draws env pos1 n) ∖ existing ∖ ({[uuid]} ∪ uuids)
                      : gset string)) as Hd.
      { apply subseteq_size, subseteq_difference_l. done. }
      lia.
    + apply IH.
      assert (({[uuid]} ∪ list_to_set (draws env pos1 n)) ∖ existing ∖ uuids
              ⊆ list_to_set (draws env pos1 n) ∖ existing ∖ uuids) as Hsub.
      { intros u. rewrite !elem_of_difference, !elem_of_union, !elem_of_singleton.
        intros [[[->|Hu] He] Hn]; [|done].
        exfalso. apply Hnew. done. }
      apply subseteq_size in Hsub. lia.
Qed.

End Generator.

(** C8. [generate_unique_uuid_set(n, existing)]: whatever it returns is a
    set of exactly [n] identifiers, each of 24 characters of [[A-F0-9]] and
    none in [existing]; and it does return as soon as the entropy source has
    delivered [n] distinct identifiers outside [existing]. *)
Theorem generate_unique_uuid_set_contract
    (env : Env) (n : nat) (existing : gset string) (pos : nat) :
  (∀ fuel uuids pos',
      XcodeProjectFixer.generate_unique_uuid_set fuel env n existing pos
        = Some (uuids, pos')
      → size uuids = n
        ∧ ∀ u, u ∈ uuids → is_identifier u ∧ u ∉ existing)
  ∧ (∀ k, n ≤ size (list_to_set (draws env pos k) ∖ existing : gset string)
          → ∃ uuids pos',
              XcodeProjectFixer.generate_unique_uuid_set k env n existing pos
                = Some (uuids, pos')).
Proof.
  split.
  - intros fuel uuids pos' Hrun.
    eapply uuid_set_loop_sound; [exact Hrun| |].
    + rewrite size_empty. lia.
    + intros u Hu. by apply not_elem_of_empty in Hu.
  - intros k Hk. apply uuid_set_loop_terminates.
    rewrite size_empty, difference_empty_L. lia.
Qed.

Lemma generate_unique_uuid_set_contract_witness :
  ∃ uuids pos',
    XcodeProjectFixer.generate_unique_uuid_set 2
      (Samples.calm Samples.counting_bytes) 2 ∅ 0 = Some (uuids, pos')
    ∧ size uuids = 2.
Proof.
  destruct (generate_unique_uuid_set_contract
              (Samples.calm Samples.counting_bytes) 2 ∅ 0) as [Hsound Hreturns].
  destruct (Hreturns 2) as (uuids & pos' & Hrun); [vm_compute; lia|].
  exists uuids, pos'. split; [exact Hrun|]. exact (proj1 (Hsound _ _ _ Hrun)).
Defined.

(** ** The replacement mapping *)

Section Mapping.

Implicit Types (pairs : list (string * string)) (l : list string).

Lemma NoDup_snd_one_to_one pairs : NoDup pairs.*2 → one_to_one pairs.
Proof.
  induction pairs as [|[o n] pairs IH]; intros Hnd o1 n1 o2 n2 H1 H2 Hne Heq.
  - by apply elem_of_nil in H1.
  - cbn in Hnd. apply NoDup_cons in Hnd as [Hnin Hnd]. subst n2.
    apply elem_of_cons in H1 as [H1|H1];
      apply elem_of_cons in H2 as [H2|H2]; simplify_eq.
    + apply Hnin. apply list_elem_of_fmap. by exists (o2, n).
    + apply Hnin. apply list_elem_of_fmap. by exists (o1, n).
    + by apply (IH Hnd o1 n1 o2 n1).
Qed.

Lemma build_replacement_map_news known l : ∀ i rm,
  XcodeProjectFixer.build_replacement_map i known l = Some rm
  → (mapping rm).*2 = firstn (length known) (skipn i l)
    ∧ (mapping rm).*1 = known.*1.
Proof.
  induction known as [|[old [name file]] known IH]; intros i rm Hb;
    cbn [XcodeProjectFixer.build_replacement_map] in Hb.
  - injection Hb as <-. done.
  - destruct (l !! i) as [new|] eqn:Hi; [|done].
    destruct (XcodeProjectFixer.build_replacement_map (S i) known l) as [rm'|] eqn:Hr;
      [|done].
    injection Hb as <-. apply IH in Hr as [Hn Ho].
    rewrite (drop_S _ _ _ Hi). cbn. by rewrite <- Hn, <- Ho.
Qed.

Lemma NoDup_take_drop l i n : NoDup l → NoDup (firstn n (skipn i l)).
Proof.
  intros Hnd. eapply sublist_NoDup; [exact Hnd|].
  transitivity (skipn i l); [apply sublist_take|apply sublist_drop].
Qed.

Lemma elem_of_take_drop l i n x : x ∈ firstn n (skipn i l) → x ∈ l.
Proof.
  intros Hx. eapply elem_of_sublist; [exact Hx|].
  transitivity (skipn i l); [apply sublist_take|apply sublist_drop].
Qed.

Lemma mint_fresh env existing (fuel : nat) : ∀ pos new pos',
  PreciseXcodeProjectFixer.mint fuel env existing pos = Some (new, pos')
  → is_identifier new ∧ new ∉ existing.
Proof.
  induction fuel as [|fuel IH]; intros pos new pos' Hm;
    cbn [PreciseXcodeProjectFixer.mint] in Hm; [done|].
  pose proof (generate_xcode_uuid_identifier env pos) as [Hid _].
  change (XcodeProjectFixer.generate_xcode_uuid env pos)
    with (PreciseXcodeProjectFixer.generate_xcode_uuid env pos) in Hid.
  destruct (PreciseXcodeProjectFixer.generate_xcode_uuid env pos) as [u pos1].
  case_decide as Hfresh; [|by eapply IH].
  by injection Hm as <- <-.
Qed.

Lemma replacement_loop_news env (fuel : nat) fixes : ∀ existing pos rm pos',
  PreciseXcodeProjectFixer.replacement_loop fuel env fixes existing pos
    = Some (rm, pos')
  → rm.*1 = fixes.*1 ∧ NoDup rm.*2
    ∧ ∀ new, new ∈ rm.*2 → is_identifier new ∧ new ∉ existing.
Proof.
  induction fixes as [|[old name] fixes IH]; intros existing pos rm pos' Hl;
    cbn [PreciseXcodeProjectFixer.replacement_loop] in Hl.
  - injection Hl as <- <-. split; [done|]. split; [constructor|].
    intros new Hn. by apply elem_of_nil in Hn.
  - destruct (PreciseXcodeProjectFixer.mint fuel env existing pos)
      as [[new pos1]|] eqn:Hm; [|done].
    destruct (PreciseXcodeProjectFixer.replacement_loop fuel env fixes
                ({[new]} ∪ existing) pos1) as [[rm' pos2]|] eqn:Hr; [|done].
    injection Hl as <- <-.
    apply mint_fresh in Hm as [Hid Hfresh].
    apply IH in Hr as (Ho & Hnd & Hall). cbn.
    split; [by rewrite Ho|]. split.
    + apply NoDup_cons. split; [|done]. intros Hin.
      apply Hall in Hin as [_ Hin]. apply Hin, elem_of_union_l, elem_of_singleton.
      done.
    + intros u [->|Hu]%elem_of_cons; [done|].
      apply Hall in Hu as [? Hu]. split; [done|].
      intros He. apply Hu, elem_of_union_r. done.
Qed.

End Mapping.

Lemma sound_order_calm (source : nat → byte) : sound_order (Samples.calm source).
Proof. intros X. reflexivity. Qed.

(** C6, as the code has it.  Every replacement mapping produced by
    [generate_replacement_uuids], in either fixer, is one-to-one, and no new
    identifier is a token of the document at generation time; hence no new
    identifier is an old identifier that occurs in the document. *)
Theorem replacement_mapping_fresh (fuel : nat) (env : Env) :
  (∀ m rm m',
      sound_order env
      → XcodeProjectFixer.generate_replacement_uuids fuel env m = Return rm m'
      → one_to_one (mapping rm)
        ∧ new_apart_from_tokens
            (XcodeProjectFixer.content (XcodeProjectFixer.self m)) (mapping rm)
        ∧ new_apart_from_present_old
            (XcodeProjectFixer.content (XcodeProjectFixer.self m)) (mapping rm))
  ∧ (∀ text pos rm pos',
        PreciseXcodeProjectFixer.generate_replacement_uuids fuel env text pos
          = Some (rm, pos')
        → one_to_one rm
          ∧ new_apart_from_tokens text rm
          ∧ new_apart_from_present_old text rm).
Proof.
  assert (Hpresent : ∀ text pairs,
             new_apart_from_tokens text pairs → new_apart_from_present_old text pairs).
  { intros text pairs Hfresh new old Hnew _ Hold ->. by apply (Hfresh old). }
  split.
  - intros m rm m' Horder Hgen.
    unfold XcodeProjectFixer.generate_replacement_uuids in Hgen.
    destruct (XcodeProjectFixer.generate_unique_uuid_set _ _ _ _ _)
      as [[new_uuids pos']|] eqn:Hset; [|done].
    destruct (XcodeProjectFixer.build_replacement_map _ _ _) as [rm'|] eqn:Hbuild;
      [|done].
    injection Hgen as <- _.
    apply build_replacement_map_news in Hbuild as [Hnews _].
    eapply uuid_set_loop_sound in Hset as [_ Hminted];
      [|rewrite size_empty; lia|intros u Hu; by apply not_elem_of_empty in Hu].
    assert (Hfresh : new_apart_from_tokens
              (XcodeProjectFixer.content (XcodeProjectFixer.self m)) (mapping rm')).
    { intros new Hnew. rewrite Hnews in Hnew.
      apply elem_of_take_drop in Hnew. rewrite (Horder new_uuids) in Hnew.
      apply elem_of_elements, Hminted in Hnew as [_ Hnew].
      by rewrite elem_of_list_to_set in Hnew. }
    split; [|split; [done|by apply Hpresent]].
    apply NoDup_snd_one_to_one. rewrite Hnews. apply NoDup_take_drop.
    rewrite (Horder new_uuids). apply NoDup_elements.
  - intros text pos rm pos' Hgen.
    apply replacement_loop_news in Hgen as (_ & Hnd & Hall).
    assert (Hfresh : new_apart_from_tokens text rm).
    { intros new Hnew. apply Hall in Hnew as [_ Hnew].
      by rewrite elem_of_list_to_set in Hnew. }
    split; [by apply NoDup_snd_one_to_one|]. split; [done|by apply Hpresent].
Qed.

Lemma replacement_mapping_fresh_witness :
  ∃ rm m',
    XcodeProjectFixer.generate_replacement_uuids 10
      (Samples.calm Samples.counting_bytes) (Samples.loaded Samples.tripled)
      = Return rm m'
    ∧ one_to_one (mapping rm)
    ∧ new_apart_from_tokens Samples.tripled (mapping rm)
    ∧ new_apart_from_present_old Samples.tripled (mapping rm).
Proof.
  eexists _, _. split; [vm_compute; reflexivity|].
  eapply (proj1 (replacement_mapping_fresh 10 (Samples.calm Samples.counting_bytes))
            (Samples.loaded Samples.tripled)).
  - apply sound_order_calm.
  - vm_compute; reflexivity.
Defined.

(** C6 as stated does not hold: the generator only avoids the tokens of the
    document, so on a document without the first key of [known_collisions]
    an entropy source that spells that key makes it a new identifier. *)
Lemma replacement_mapping_reuses_old_identifier :
  ¬ (∀ fuel env m rm m',
        sound_order env
        → XcodeProjectFixer.generate_replacement_uuids fuel env m = Return rm m'
        → one_to_one (mapping rm)
          ∧ new_apart_from_old (mapping rm)
          ∧ new_apart_from_tokens
              (XcodeProjectFixer.content (XcodeProjectFixer.self m)) (mapping rm)).
Proof.
  intros Hclaim.
  destruct (XcodeProjectFixer.generate_replacement_uuids 10
              (Samples.calm Samples.key_first_bytes) (Samples.loaded Samples.tripled))
    as [rm m'| |] eqn:Hgen; [|by vm_compute in Hgen..].
  destruct (Hclaim _ _ _ _ _ (sound_order_calm _) Hgen) as (_ & Hapart & _).
  vm_compute in Hgen. injection Hgen as <- _.
  apply (Hapart "A1000001000000000000001A");
    apply (bool_decide_unpack _); vm_compute; exact I.
Qed.

(** ** The save and rollback controller *)

Section Controller.

Import XcodeProjectFixer.

Variable env : Env.

Lemma save_project_cases (m : Machine) :
  ∃ (b : bool) m',
    save_project env m = Return b m'
    ∧ self m' = self m
    ∧ stdout (world m') = (stdout (world m) ++ [if b then ProjectSaved else SaveError])%list
    ∧ saves (world m') = S (saves (world m))
    ∧ (b = true ↔ save_succeeds env (saves (world m)))
    ∧ pbxproj (world m') = (if b then Some (content (self m)) else pbxproj (world m))
    ∧ writes (world m') = (if b then S (writes (world m)) else writes (world m)).
Proof.
  unfold save_project, save_succeeds, write_file.
  destruct (write_outcomes env (saves (world m))) eqn:Hw;
    destruct (move_fails env (saves (world m))) eqn:Hmv; cbn;
    do 2 eexists; (split; [reflexivity|]); cbn; intuition congruence.
Qed.

Lemma rollback_cases (m : Machine) :
  ∃ (b : bool) m',
    rollback env m = Return tt m'
    ∧ content (self m') = original_content (self m)
    ∧ original_content (self m') = original_content (self m)
    ∧ stdout (world m')
      = (stdout (world m)
         ++ [RollingBack; (if b then ProjectSaved else SaveError);
             (if b then RollbackSuccessful else RollbackFailed)])%list
    ∧ (b = true ↔ save_succeeds env (saves (world m)))
    ∧ pbxproj (world m')
      = (if b then Some (original_content (self m)) else pbxproj (world m))
    ∧ writes (world m') = (if b then S (writes (world m)) else writes (world m)).
Proof.
  unfold rollback, bind, say, set_content. cbn.
  match goal with |- context [save_project env ?x] =>
    destruct (save_project_cases x) as (b & m1 & -> & Hself & Hout & _ & Hb & Hfile & Hw)
  end.
  cbn in *. exists b.
  destruct b; cbn; eexists; (split; [reflexivity|]); cbn;
    rewrite Hself, Hout, Hfile, Hw; cbn; rewrite <- !app_assoc; cbn; done.
Qed.

End Controller.

Section Phases.

Import XcodeProjectFixer.

Variable env : Env.

Lemma checks_print_diagnostics (text : string) :
  Forall diagnostic (validate_uuid_uniqueness text).2
  ∧ Forall diagnostic (validate_object_references text).2
  ∧ Forall diagnostic (validate_project_structure text).2
  ∧ Forall diagnostic (validate_xcode_format text).2.
Proof.
  unfold validate_uuid_uniqueness, validate_object_references,
    validate_project_structure, validate_xcode_format.
  repeat split.
  - case_decide; cbn; repeat constructor.
  - case_decide; cbn; repeat constructor.
  - destruct (List.filter _ _); cbn; repeat constructor.
  - destruct (negb _); [cbn; repeat constructor|].
    repeat case_decide; cbn; repeat constructor.
Qed.

Lemma rollback_rolled_back (m : Machine) :
  ∃ m' ls,
    rollback env m = Return tt m'
    ∧ original_content (self m') = original_content (self m)
    ∧ stdout (world m') = (stdout (world m) ++ ls)%list
    ∧ Forall (fun l => l ∈ [RollingBack; ProjectSaved; SaveError;
                             RollbackSuccessful; RollbackFailed]) ls
    ∧ rolled_back env (saves (world m)) (original_content (self m))
        (pbxproj (world m)) (writes (world m)) (world m').
Proof.
  destruct (rollback_cases env m) as (b & m' & Hrun & _ & Ho & Hout & Hb & Hf & Hw).
  exists m'. eexists. split; [done|]. split; [done|]. split; [exact Hout|].
  split.
  - destruct b; repeat (constructor; [by repeat constructor|]); constructor.
  - unfold rolled_back. destruct b; case_decide as Hs; try done.
    + exfalso. apply Hs, Hb. done.
    + apply Hb in Hs. done.
Qed.

End Phases.

Section Verdicts.

Import XcodeProjectFixer.

Variable env : Env.

Lemma quiet_not_verdict (ls : list line) :
  Forall quiet ls → (FixCompleted ∉ ls) ∧ ∀ c, ValidationFailed c ∉ ls.
Proof.
  intros Hq. split; [|intros c]; intros Hin;
    (eapply Forall_forall in Hq; [|exact Hin]);
    (destruct Hq as [Hd|Hl]; [done|]);
    repeat (apply elem_of_cons in Hl as [Hl|Hl]; [done|]);
    by apply elem_of_nil in Hl.
Qed.

Lemma diagnostics_quiet (ls : list line) : Forall diagnostic ls → Forall quiet ls.
Proof. intros H. eapply Forall_impl; [exact H|]. intros l Hl. by left. Qed.

Lemma rollback_lines_quiet (ls : list line) :
  Forall (fun l => l ∈ [RollingBack; ProjectSaved; SaveError;
                         RollbackSuccessful; RollbackFailed]) ls
  → Forall quiet ls.
Proof.
  intros H. eapply Forall_impl; [exact H|]. intros l Hl. right.
  repeat (apply elem_of_cons in Hl as [->|Hl]; [by repeat constructor|]).
  by apply elem_of_nil in Hl.
Qed.

Ltac reject env :=
  unfold bind at 1, say at 1; unfold bind at 1;
  match goal with |- context [rollback env ?x] =>
    let m' := fresh "m'" in let lr := fresh "lr" in
    let Ho := fresh "Ho" in let Hout := fresh "Hout" in
    let Hl := fresh "Hl" in let Hr := fresh "Hr" in
    destruct (rollback_rolled_back env x) as (m' & lr & -> & Ho & Hout & Hl & Hr);
    apply rollback_lines_quiet, quiet_not_verdict in Hl;
    cbn [self world print stdout pbxproj writes saves original_content] in *;
    exists false, m'; eexists; (split; [reflexivity|]);
    rewrite Hout, <- !app_assoc; (split; [reflexivity|]);
    right; left; (split; [done|]);
    repeat match goal with H : _ ∧ _ |- _ => destruct H end;
    split; [|split; [|split; [|exact Hr]]];
    [ rewrite !elem_of_app, !elem_of_cons, elem_of_nil; intuition congruence
    | intros (? & ? & ? & ?); congruence
    | eexists; rewrite !elem_of_app, !elem_of_cons; eauto 10 ]
  end.

Lemma validate_and_save_cases (m : Machine) :
  ∃ (b : bool) m' ls,
    validate_and_save env m = Return b m'
    ∧ stdout (world m') = (stdout (world m) ++ ls)%list
    ∧ ((b = true ∧ all_checks_pass (content (self m))
        ∧ save_succeeds env (saves (world m))
        ∧ pbxproj (world m') = Some (content (self m))
        ∧ writes (world m') = S (writes (world m))
        ∧ FixCompleted ∈ ls ∧ (∀ c, ValidationFailed c ∉ ls))
       ∨ (b = false ∧ (FixCompleted ∉ ls)
          ∧ ¬ all_checks_pass (content (self m))
          ∧ (∃ c, ValidationFailed c ∈ ls)
          ∧ rolled_back env (saves (world m)) (original_content (self m))
              (pbxproj (world m)) (writes (world m)) (world m'))
       ∨ (b = false ∧ (FixCompleted ∉ ls) ∧ (∀ c, ValidationFailed c ∉ ls)
          ∧ all_checks_pass (content (self m))
          ∧ ¬ save_succeeds env (saves (world m))
          ∧ rolled_back env (S (saves (world m))) (original_content (self m))
              (pbxproj (world m)) (writes (world m)) (world m'))).
Proof.
  pose proof (checks_print_diagnostics (content (self m))) as (D1 & D2 & D3 & D4).
  apply diagnostics_quiet, quiet_not_verdict in D1, D2, D3, D4.
  unfold validate_and_save, all_checks_pass.
  unfold bind at 1, checking at 1.
  destruct (validate_uuid_uniqueness (content (self m))) as [ok1 l1].
  cbn [fst snd self world content] in *. destruct ok1; cbn [negb]; [|reject env].
  unfold bind at 1, checking at 1. cbn [self world content].
  destruct (validate_object_references (content (self m))) as [ok2 l2].
  cbn [fst snd self world content] in *. destruct ok2; cbn [negb]; [|reject env].
  unfold bind at 1, checking at 1. cbn [self world content].
  destruct (validate_project_structure (content (self m))) as [ok3 l3].
  cbn [fst snd self world content] in *. destruct ok3; cbn [negb]; [|reject env].
  unfold bind at 1, checking at 1. cbn [self world content].
  destruct (validate_xcode_format (content (self m))) as [ok4 l4].
  cbn [fst snd self world content] in *. destruct ok4; cbn [negb]; [|reject env].
  unfold bind at 1.
  match goal with |- context [save_project env ?x] =>
    destruct (save_project_cases env x)
      as (saved & m1 & -> & Hself & Hout1 & Hk & Hs & Hfile & Hw) end.
  cbn [self world content print pbxproj writes saves stdout] in *.
  destruct saved; cbn [negb].
  - unfold bind, say, ret. do 3 eexists. split; [reflexivity|].
    cbn [self world print stdout pbxproj writes]. rewrite Hout1, <- !app_assoc.
    split; [reflexivity|]. left.
    split; [done|]. split; [done|]. split; [by apply Hs|].
    split; [done|]. split; [done|]. split.
    + rewrite !elem_of_app, !elem_of_cons. tauto.
    + intros c. rewrite !elem_of_app, !elem_of_cons, elem_of_nil.
      destruct D1 as [_ D1], D2 as [_ D2], D3 as [_ D3], D4 as [_ D4].
      specialize (D1 c). specialize (D2 c). specialize (D3 c). specialize (D4 c).
      intuition congruence.
  - unfold bind at 1, say at 1; unfold bind at 1.
    match goal with |- context [rollback env ?x] =>
      destruct (rollback_rolled_back env x) as (m' & lr & -> & Ho & Hout & Hl & Hr) end.
    apply rollback_lines_quiet, quiet_not_verdict in Hl.
    cbn [self world print stdout pbxproj writes saves original_content] in *.
    exists false, m'. eexists. split; [reflexivity|].
    rewrite Hout, Hout1, <- !app_assoc. split; [reflexivity|].
    right; right. split; [done|].
    destruct D1 as [D1 D1'], D2 as [D2 D2'], D3 as [D3 D3'], D4 as [D4 D4'],
      Hl as [Hl Hl'].
    split; [|split; [|split; [done|split]]].
    + rewrite !elem_of_app, !elem_of_cons, elem_of_nil. intuition congruence.
    + intros c. specialize (D1' c). specialize (D2' c). specialize (D3' c).
      specialize (D4' c). specialize (Hl' c).
      rewrite !elem_of_app, !elem_of_cons, elem_of_nil. intuition congruence.
    + intros Hok. apply Hs in Hok. done.
    + rewrite Hk, Hself, Hfile, Hw in Hr. exact Hr.
Qed.

End Verdicts.

Section Runs.

Import XcodeProjectFixer.

Variables (fuel : nat) (env : Env).

(** Phases 2 and 3 touch neither the files nor the snapshot. *)
Lemma generate_and_apply_frame (m : Machine) :
  match generate_and_apply fuel env m with
  | Return _ m1 | Raise m1 =>
      original_content (self m1) = original_content (self m)
      ∧ pbxproj (world m1) = pbxproj (world m)
      ∧ writes (world m1) = writes (world m)
      ∧ saves (world m1) = saves (world m)
      ∧ stdout (world m1) = stdout (world m)
  | OutOfFuel => True
  end.
Proof.
  unfold generate_and_apply, bind, generate_replacement_uuids,
    fix_group_definitions, fix_parent_references, set_content, set_drawn.
  destruct (generate_unique_uuid_set _ _ _ _ _) as [[new_uuids pos']|]; [|done].
  match goal with |- context [build_replacement_map ?i ?k ?l] =>
    destruct (build_replacement_map i k l) end; cbn; done.
Qed.

(** A run that met an exception ends in the handler. *)
Lemma handler_aborts (m : Machine) (file tmp : option string) :
  stdout (world m) = [] →
  ∃ m', (run say [CriticalError] in run rollback env in ret false) m
        = Return false m'
        ∧ run_ends env file tmp false (world m').
Proof.
  intros Hout. unfold bind at 1, say at 1. unfold bind at 1.
  match goal with |- context [rollback env ?x] =>
    destruct (rollback_rolled_back env x) as (m' & lr & -> & _ & Hlr & Hl & _) end.
  cbn [self world print stdout] in Hlr. rewrite Hout in Hlr. cbn in Hlr.
  exists m'. split; [done|].
  assert (Forall quiet (stdout (world m'))) as Hq.
  { rewrite Hlr. constructor; [right; by repeat constructor|].
    by apply rollback_lines_quiet. }
  apply quiet_not_verdict in Hq as [? ?]. by apply ends_aborted.
Qed.

Lemma fix_project_ends (file tmp : option string) (b : bool) (m' : Machine) :
  fix_project fuel env (start (boot file tmp)) = Return b m'
  → run_ends env file tmp b (world m').
Proof.
  unfold fix_project, try_except. unfold bind at 1, load_project, start.
  cbn [world self boot pbxproj].
  destruct (read_fails env).
  { intros Hrun. edestruct handler_aborts as (m1 & Hm1 & Hends);
      [|rewrite Hm1 in Hrun; injection Hrun as <- <-; exact Hends]. done. }
  destruct file as [text|].
  2:{ intros Hrun. edestruct handler_aborts as (m1 & Hm1 & Hends);
      [|rewrite Hm1 in Hrun; injection Hrun as <- <-; exact Hends]. done. }
  unfold bind at 1, get_content. cbn [self content].
  case_decide as Hcol.
  { unfold bind, say, ret. cbn. intros [= <- <-]. cbn. by eapply ends_clean. }
  unfold bind at 1.
  match goal with |- context [generate_and_apply fuel env ?x] =>
    pose proof (generate_and_apply_frame x) as Hframe;
    destruct (generate_and_apply fuel env x) as [[] m1|m1|] end; [| |done].
  - cbn [self world original_content pbxproj writes saves stdout] in Hframe.
    destruct Hframe as (Ho & Hf & Hw & Hk & Hout).
    destruct (validate_and_save_cases env m1) as (b1 & m2 & ls & -> & Hls & Hcases).
    intros [= <- <-]. rewrite Hout in Hls. cbn in Hls.
    rewrite Ho, Hf, Hw, Hk in Hcases.
    destruct Hcases as [Hc|[Hc|Hc]].
    + destruct Hc as (-> & Hpass & Hsave & Hfile & Hwr & Hdone & Hnv).
      eapply ends_committed; eauto; by rewrite Hls.
    + destruct Hc as (-> & Hnd & _ & [c Hc] & Hr).
      eapply ends_rejected; eauto; by rewrite Hls.
    + destruct Hc as (-> & Hnd & Hnv & _). apply ends_aborted; by rewrite Hls.
  - cbn [self world original_content pbxproj writes saves stdout] in Hframe.
    destruct Hframe as (_ & _ & _ & _ & Hout).
    intros Hrun. edestruct (handler_aborts m1) as (m2 & Hm2 & Hends);
      [exact Hout|rewrite Hm2 in Hrun; injection Hrun as <- <-; exact Hends].
Qed.

End Runs.

(** ** Properties of a run *)



(** Outside the checks: when the file cannot be read, the handler rolls back
    to the snapshot of a fixer that never loaded anything, the empty text,
    and the save puts that text in the file. *)
Example unreadable_file_is_emptied :
  ∃ m',
    XcodeProjectFixer.fix_project 0 Samples.unreadable
      (XcodeProjectFixer.start (boot (Some Samples.tripled) None))
      = Return false m'
    ∧ pbxproj (XcodeProjectFixer.world m') = Some ""
    ∧ stdout (XcodeProjectFixer.world m')
      = [CriticalError; RollingBack; ProjectSaved; RollbackSuccessful].
Proof. eexists. split; [vm_compute; reflexivity|]. split; reflexivity. Qed.





(** ** Repaired documents *)


Lemma fix_project_no_collision (fuel : nat) (env : Env) (text : string)
    (tmp : option string) :
  read_fails env = false
  → XcodeProjectFixer.detect_collisions text = ∅
  → ∃ m',
      XcodeProjectFixer.fix_project fuel env
        (XcodeProjectFixer.start (boot (Some text) tmp)) = Return true m'
      ∧ XcodeProjectFixer.world m' = print [NoCollisionsDetected] (boot (Some text) tmp).
Proof.
  intros Hread Hnone.
  unfold XcodeProjectFixer.fix_project, try_except.
  unfold bind at 1, XcodeProjectFixer.load_project, XcodeProjectFixer.start.
  cbn [XcodeProjectFixer.world XcodeProjectFixer.self boot pbxproj].
  rewrite Hread. unfold bind at 1, XcodeProjectFixer.get_content.
  cbn [XcodeProjectFixer.self XcodeProjectFixer.content].
  case_decide; [|done].
  unfold bind, XcodeProjectFixer.say, XcodeProjectFixer.ret. cbn. eauto.
Qed.

Lemma format_check_needs_header (text : string) :
  startswith "// !$*UTF8*$!" text = false
  → XcodeProjectFixer.validate_xcode_format text = (false, [InvalidHeader]).
Proof.
  intros Hhead. unfold XcodeProjectFixer.validate_xcode_format.
  by rewrite Hhead.
Qed.



(** The precise fixer has no detector and no early return: on a document
    it has repaired, a second run finds none of its patterns, validates, and
    writes the same text over the file again. *)
Example precise_second_run_rewrites_same_text :
  ∃ m1 m2 text,
    PreciseXcodeProjectFixer.fix_project 10 (Samples.calm Samples.counting_bytes)
      (PreciseXcodeProjectFixer.start (boot (Some Samples.core_group) None))
      = Return true m1
    ∧ pbxproj (PreciseXcodeProjectFixer.world m1) = Some text
    ∧ text ≠ Samples.core_group
    ∧ PreciseXcodeProjectFixer.fix_project 10 (Samples.calm Samples.key_first_bytes)
        (PreciseXcodeProjectFixer.start
           (boot (pbxproj (PreciseXcodeProjectFixer.world m1))
                 (pbxproj_tmp (PreciseXcodeProjectFixer.world m1))))
      = Return true m2
    ∧ pbxproj (PreciseXcodeProjectFixer.world m2) = Some text
    ∧ writes (PreciseXcodeProjectFixer.world m2) = 1.
Proof.
  do 3 eexists. split; [vm_compute; reflexivity|].
  split; [reflexivity|]. split; [discriminate|].
  split; [vm_compute; reflexivity|]. split; reflexivity.
Qed.

(** C10. The format check fails every document that does not begin with
    [// !$*UTF8*$!], whatever its braces and parentheses; hence every
    document a run commits begins with that prefix. *)
Theorem committed_document_has_header (fuel : nat) (env : Env) :
  (∀ text,
      startswith "// !$*UTF8*$!" text = false
      → XcodeProjectFixer.validate_xcode_format text = (false, [InvalidHeader]))
  ∧ (∀ file tmp b m',
        XcodeProjectFixer.fix_project fuel env
          (XcodeProjectFixer.start (boot file tmp)) = Return b m'
        → FixCompleted ∈ stdout (XcodeProjectFixer.world m')
        → ∃ text,
            pbxproj (XcodeProjectFixer.world m') = Some text
            ∧ startswith "// !$*UTF8*$!" text = true).
Proof.
  split; [apply format_check_needs_header|].
  intros file tmp b m' Hrun Hdone. apply fix_project_ends in Hrun.
  destruct Hrun as [text Hfile Hnone|text text' w' _ _ Hpass _ Hfile _ _ _
                    |text c' w' _ _ _ Hnd _|w' Hnd _]; [|..|done|done].
  - cbn in Hdone. apply list_elem_of_singleton in Hdone. done.
  - exists text'. split; [done|].
    destruct Hpass as (_ & _ & _ & Hformat).
    destruct (startswith "// !$*UTF8*$!" text') eqn:Hhead; [done|].
    by rewrite (format_check_needs_header _ Hhead) in Hformat.
Qed.

Lemma committed_document_has_header_witness :
  XcodeProjectFixer.validate_xcode_format "{ ( ) }" = (false, [InvalidHeader])
  ∧ ∃ m' text,
      XcodeProjectFixer.fix_project 10 (Samples.calm Samples.crafted_entropy)
        (XcodeProjectFixer.start (boot (Some Samples.crafted) None))
        = Return true m'
      ∧ pbxproj (XcodeProjectFixer.world m') = Some text
      ∧ startswith "// !$*UTF8*$!" text = true.
Proof.
  pose proof (committed_document_has_header 10 (Samples.calm Samples.crafted_entropy))
    as [Hformat Hcommit].
  split; [apply Hformat; reflexivity|].
  eexists.
  assert (FixCompleted ∈ [ProjectSaved; FixCompleted]) as Hin by (right; left).
  destruct (Hcommit (Some Samples.crafted) None true _
              ltac:(vm_compute; reflexivity) Hin) as (text & H).
  exists text. split; [vm_compute; reflexivity|exact H].
Defined.

(** ** [str.replace] and the edits of [fix_infoplist_conflict] *)

Section Replace.

Variables old new : string.

Let R (s : string) : string := replace_from old new 0 s.

Lemma length_drop_le (k : nat) : ∀ s, String.length (drop k s) ≤ String.length s.
Proof.
  induction k as [|k IH]; intros [|c s]; cbn; try lia.
  specialize (IH s). lia.
Qed.

Lemma replace_from_skip (s : string) : ∀ k,
  replace_from old new k s = R (drop k s).
Proof.
  induction s as [|c s IH]; intros [|k]; try reflexivity.
  cbn [replace_from drop]. apply IH.
Qed.

(** Where [old] does not occur, nothing is replaced. *)
Lemma replace_from_absent (s : string) :
  old ≠ "" → contains old s = false → R s = s.
Proof.
  intros Hne. subst R. induction s as [|c s IH]; [done|].
  cbn [contains replace_from]. intros [Hhere Hlater]%orb_false_elim.
  rewrite Hhere. f_equal. by apply IH.
Qed.

Variables (g : ascii) (old' new' : string).
Hypothesis Hold : old = String g old'.
Hypothesis Hnew : new = String g new'.
Hypothesis Hfree : occurs g old' = false.
Hypothesis Hstable : ∀ x, R (new ++ x) = new ++ R x.

Lemma startswith_replaced (w : string) : ∀ t,
  occurs g w = false → startswith w (R t) = true → startswith w t = true.
Proof.
  subst R. induction w as [|a w IH]; intros t Hw Hpre; [done|].
  cbn [occurs] in Hw. case_decide as Hag; [done|].
  destruct t as [|c t]; [done|]. cbn [replace_from] in Hpre.
  destruct (startswith old (String c t)).
  - rewrite Hnew in Hpre.
    change (String g new' ++ ?x) with (String g (new' ++ x)) in Hpre.
    cbn [startswith] in Hpre. case_decide; done.
  - cbn [startswith] in *. case_decide; [|done]. by apply IH.
Qed.

Lemma replace_from_idempotent (n : nat) : ∀ s,
  String.length s ≤ n → R (R s) = R s.
Proof.
  induction n as [|n IH]; intros [|c s] Hlen; try reflexivity;
    cbn [String.length] in Hlen; [lia|].
  unfold R at 2 3. cbn [replace_from].
  destruct (startswith old (String c s)) eqn:Hhere.
  - rewrite replace_from_skip, Hstable. f_equal. apply IH.
    pose proof (length_drop_le (String.length old - 1) s). lia.
  - assert (startswith old (String c (R s)) = false) as Hstill.
    { destruct (startswith old (String c (R s))) eqn:Hpre; [|done].
      exfalso. rewrite Hold in Hhere, Hpre. cbn [startswith] in Hhere, Hpre.
      case_decide; [|done].
      apply startswith_replaced in Hpre; [congruence|done]. }
    unfold R at 1. cbn [replace_from]. fold (R s). rewrite Hstill.
    f_equal. apply IH. lia.
Qed.

End Replace.

Lemma disable_generation_stable (x : string) :
  replace_from "GENERATE_INFOPLIST_FILE = YES;" "GENERATE_INFOPLIST_FILE = NO;" 0
    ("GENERATE_INFOPLIST_FILE = NO;" ++ x)
  = "GENERATE_INFOPLIST_FILE = NO;"
    ++ replace_from "GENERATE_INFOPLIST_FILE = YES;" "GENERATE_INFOPLIST_FILE = NO;" 0 x.
Proof. vm_compute. reflexivity. Qed.

(** C9, as the code has it.  Every edit of [fix_infoplist_conflict] leaves a
    text without its target unchanged, and the edit that turns
    [GENERATE_INFOPLIST_FILE = YES;] into [GENERATE_INFOPLIST_FILE = NO;] is
    idempotent on every text. *)
Theorem infoplist_edits_noop_when_absent :
  (∀ literal_line text,
      contains literal_line text = false
      → InfoPlist.remove_line literal_line text = text)
  ∧ (∀ literal_old literal_new text,
        literal_old ≠ ""
        → contains literal_old text = false
        → InfoPlist.replace_token literal_old literal_new text = text)
  ∧ (∀ text,
        InfoPlist.disable_generation (InfoPlist.disable_generation text)
        = InfoPlist.disable_generation text).
Proof.
  split; [|split].
  - intros literal_line text Habsent. unfold InfoPlist.remove_line.
    by rewrite Habsent.
  - intros literal_old literal_new text Hne Habsent.
    unfold InfoPlist.replace_token, replace.
    destruct literal_old as [|c literal_old]; [done|].
    by apply replace_from_absent.
  - intros text. unfold InfoPlist.disable_generation, InfoPlist.replace_token, replace.
    eapply (replace_from_idempotent _ _ "G"%char "ENERATE_INFOPLIST_FILE = YES;"
              "ENERATE_INFOPLIST_FILE = NO;" eq_refl eq_refl eq_refl
              disable_generation_stable (String.length text)).
    done.
Qed.

Lemma infoplist_edits_noop_when_absent_witness :
  InfoPlist.remove_buildfile_entry "isa = PBXProject;" = "isa = PBXProject;"
  ∧ InfoPlist.add_infoplist_setting "isa = PBXProject;" = "isa = PBXProject;".
Proof.
  destruct infoplist_edits_noop_when_absent as (Hremove & Hreplace & _).
  split.
  - apply Hremove. reflexivity.
  - apply Hreplace; [discriminate|reflexivity].
Defined.

(** C9 as stated does not hold: the edit that adds the [INFOPLIST_FILE]
    setting adds it again when it is applied to its own result. *)
Lemma infoplist_setting_added_twice :
  ¬ ((∀ text, InfoPlist.remove_buildfile_entry (InfoPlist.remove_buildfile_entry text)
              = InfoPlist.remove_buildfile_entry text)
     ∧ (∀ text, InfoPlist.remove_resource_entry (InfoPlist.remove_resource_entry text)
                = InfoPlist.remove_resource_entry text)
     ∧ (∀ text, InfoPlist.disable_generation (InfoPlist.disable_generation text)
                = InfoPlist.disable_generation text)
     ∧ (∀ text, InfoPlist.add_infoplist_setting (InfoPlist.add_infoplist_setting text)
                = InfoPlist.add_infoplist_setting text)).
Proof.
  intros (_ & _ & _ & Hadd).
  specialize (Hadd "GENERATE_INFOPLIST_FILE = NO;").
  vm_compute in Hadd. discriminate Hadd.
Qed.

(** Removing a line can bring a new copy of it together: the removal edits
    are not idempotent on every text either. *)
Example remove_buildfile_entry_twice :
  InfoPlist.remove_buildfile_entry Samples.nested_buildfile_line
    = InfoPlist.infoplist_buildfile_line
  ∧ InfoPlist.remove_buildfile_entry
      (InfoPlist.remove_buildfile_entry Samples.nested_buildfile_line) = "".
Proof. split; vm_compute; reflexivity. Qed.

(** * Further properties of the code *)

(** ** The scans return well-formed identifiers that occur in the text *)

Section Scans.

Lemma startswith_take (n : nat) : ∀ s, startswith (take n s) s = true.
Proof.
  induction n as [|n IH]; intros [|c s]; try reflexivity.
  cbn [take startswith]. case_decide; [apply IH|done].
Qed.

Lemma uuid_chars_take (n : nat) : ∀ s,
  uuid_chars n s = true
  → String.length (take n s) = n ∧ uuid_chars n (take n s) = true.
Proof.
  induction n as [|n IH]; intros [|c s] Hs; try done.
  cbn [uuid_chars] in Hs. apply andb_prop in Hs as [Hc Hs].
  apply IH in Hs as [Hl Hu]. cbn [take String.length uuid_chars].
  by rewrite Hl, Hc, Hu.
Qed.

Lemma startswith_take_app (n : nat) (p : string) : ∀ s,
  String.length (take n s) = n
  → startswith p (drop n s) = true
  → startswith (take n s ++ p) s = true.
Proof.
  induction n as [|n IH]; intros [|c s] Hl Hp; try done.
  cbn [take drop String.length] in *.
  change (String c (take n s) ++ p) with (String c (take n s ++ p)).
  cbn [startswith]. case_decide; [|done]. apply IH; [lia|done].
Qed.

Lemma contains_later (p : string) (c : ascii) (s : string) :
  contains p s = true → contains p (String c s) = true.
Proof. intros H. cbn [contains]. rewrite H. apply orb_true_r. Qed.

Lemma contains_here (p s : string) : startswith p s = true → contains p s = true.
Proof. intros H. destruct s; cbn [contains]; by rewrite H. Qed.

Lemma findall_uuid_from_sound (s : string) : ∀ skip u,
  u ∈ findall_uuid_from skip s → is_identifier u ∧ contains u s = true.
Proof.
  induction s as [|c s IH]; intros skip u Hu; [by apply elem_of_nil in Hu|].
  cbn [findall_uuid_from] in Hu. destruct skip as [|k].
  - destruct (uuid_chars 24 (String c s)) eqn:Hhex.
    + apply elem_of_cons in Hu as [->|Hu].
      * split; [by apply uuid_chars_take|].
        apply contains_here, startswith_take.
      * apply IH in Hu as [? ?]. split; [done|by apply contains_later].
    + apply IH in Hu as [? ?]. split; [done|by apply contains_later].
  - apply IH in Hu as [? ?]. split; [done|by apply contains_later].
Qed.

Lemma findall_definition_from_sound (s : string) : ∀ skip u,
  u ∈ findall_definition_from skip s
  → is_identifier u ∧ contains (u ++ " = {") s = true.
Proof.
  induction s as [|c s IH]; intros skip u Hu; [by apply elem_of_nil in Hu|].
  cbn [findall_definition_from] in Hu. destruct skip as [|k].
  - destruct (uuid_chars 24 (String c s) && startswith " = {" (drop 24 (String c s)))
      eqn:Hhere.
    + apply andb_prop in Hhere as [Hhex Hbrace].
      apply elem_of_cons in Hu as [->|Hu].
      * pose proof (uuid_chars_take 24 _ Hhex) as [Hl Hc].
        split; [done|]. by apply contains_here, startswith_take_app.
      * apply IH in Hu as [? ?]. split; [done|by apply contains_later].
    + apply IH in Hu as [? ?]. split; [done|by apply contains_later].
  - apply IH in Hu as [? ?]. split; [done|by apply contains_later].
Qed.

End Scans.

(** X1. Every token the scan of [[A-F0-9]{24}] returns has 24 characters of
    that class and occurs in the text; every identifier the scan of
    definition headers returns has that shape and occurs in the text
    followed by [ = {]; and every identifier [detect_collisions] reports is
    such a token. *)
Theorem scans_return_identifiers (text : string) :
  (∀ u, u ∈ findall_uuid text → is_identifier u ∧ contains u text = true)
  ∧ (∀ u, u ∈ findall_definition text
          → is_identifier u ∧ contains (u ++ " = {") text = true)
  ∧ (∀ u c, XcodeProjectFixer.detect_collisions text !! u = Some c
            → is_identifier u ∧ contains u text = true).
Proof.
  split; [|split].
  - intros u. apply findall_uuid_from_sound.
  - intros u. apply findall_definition_from_sound.
  - intros u c Hc. apply detect_collisions_Some in Hc as [-> Hc].
    unfold occurrence_count in Hc.
    destruct (filter (fun token => token = u) (findall_uuid text)) as [|v l] eqn:Hf;
      [cbn in Hc; lia|].
    assert (v ∈ filter (fun token => token = u) (findall_uuid text)) as Hv
      by (rewrite Hf; left).
    apply list_elem_of_filter in Hv as [-> Hv].
    by apply (findall_uuid_from_sound text 0).
Qed.

Lemma scans_return_identifiers_witness :
  is_identifier "AAAAAAAAAAAAAAAAAAAAAAAA"
  ∧ contains "AAAAAAAAAAAAAAAAAAAAAAAA" Samples.tripled = true.
Proof.
  apply (proj2 (proj2 (scans_return_identifiers Samples.tripled))
           "AAAAAAAAAAAAAAAAAAAAAAAA" 3).
  vm_compute. reflexivity.
Defined.

(** ** The identifier generator *)

Section Encoding.

Lemma nibble_injective (n m : N) :
  (n < 16)%N → (m < 16)%N
  → upper_char (hex_digit n) = upper_char (hex_digit m) → n = m.
Proof.
  intros Hn Hm.
  destruct n as [|p]; [|do 4 (try destruct p as [p|p|]; try lia)];
    (destruct m as [|q]; [|do 4 (try destruct q as [q|q|]; try lia)]);
    vm_compute; congruence.
Qed.

Lemma byte_nibbles_injective (a b : byte) :
  (Byte.to_N a / 16 = Byte.to_N b / 16)%N
  → (Byte.to_N a mod 16 = Byte.to_N b mod 16)%N
  → a = b.
Proof.
  intros Hhigh Hlow.
  assert (Byte.to_N a = Byte.to_N b) as Heq.
  { rewrite (N.div_mod (Byte.to_N a) 16), (N.div_mod (Byte.to_N b) 16) by lia.
    by rewrite Hhigh, Hlow. }
  pose proof (Byte.of_to_N a) as Ha. pose proof (Byte.of_to_N b) as Hb.
  rewrite Heq in Ha. congruence.
Qed.

Lemma upper_hex_injective (bs : list byte) : ∀ bs',
  upper (hex bs) = upper (hex bs') → bs = bs'.
Proof.
  induction bs as [|a bs IH]; intros [|b bs'] Heq; try done.
  cbn [hex upper] in Heq. injection Heq as Hhigh Hlow Hrest.
  pose proof (Byte.to_N_bounded a). pose proof (Byte.to_N_bounded b).
  f_equal; [|by apply IH].
  apply byte_nibbles_injective; apply nibble_injective; try done;
    try (apply N.mod_upper_bound; lia);
    apply N.Div0.div_lt_upper_bound; lia.
Qed.

End Encoding.

(** X2. [generate_xcode_uuid] consumes exactly twelve bytes of entropy and
    returns 24 characters of [[A-F0-9]]; both classes generate the same
    identifier; and two calls return the same identifier exactly when
    they drew the same twelve bytes. *)
Theorem generate_xcode_uuid_encodes_bytes (env env' : Env) (pos pos' : nat) :
  is_identifier (XcodeProjectFixer.generate_xcode_uuid env pos).1
  ∧ (XcodeProjectFixer.generate_xcode_uuid env pos).2 = pos + 12
  ∧ PreciseXcodeProjectFixer.generate_xcode_uuid env pos
    = XcodeProjectFixer.generate_xcode_uuid env pos
  ∧ ((XcodeProjectFixer.generate_xcode_uuid env pos).1
       = (XcodeProjectFixer.generate_xcode_uuid env' pos').1
     ↔ ∀ i, i < 12 → entropy env (pos + i) = entropy env' (pos' + i)).
Proof.
  split; [apply generate_xcode_uuid_identifier|].
  split; [apply generate_xcode_uuid_identifier|].
  split; [reflexivity|].
  unfold XcodeProjectFixer.generate_xcode_uuid, token_bytes. cbn [fst].
  split.
  - intros Heq%upper_hex_injective i Hi.
    apply (f_equal (fun l => l !! i)) in Heq.
    rewrite !list_lookup_fmap, !lookup_seq_lt in Heq by done.
    cbn in Heq. congruence.
  - intros Hbytes. do 2 f_equal.
    apply list_eq. intros i. rewrite !list_lookup_fmap.
    destruct (decide (i < 12)) as [Hi|Hi].
    + rewrite !lookup_seq_lt by done. cbn. f_equal. by apply Hbytes.
    + rewrite !lookup_seq_ge by lia. reflexivity.
Qed.

Lemma generate_xcode_uuid_encodes_bytes_witness :
  (XcodeProjectFixer.generate_xcode_uuid (Samples.calm Samples.counting_bytes) 0).1
  = (XcodeProjectFixer.generate_xcode_uuid (Samples.calm Samples.counting_bytes) 256).1.
Proof.
  apply (proj2 (proj2 (proj2 (proj2
    (generate_xcode_uuid_encodes_bytes
       (Samples.calm Samples.counting_bytes) (Samples.calm Samples.counting_bytes)
       0 256))))).
  intros i Hi. do 12 (destruct i as [|i]; [reflexivity|]). lia.
Defined.

(** ** The uniqueness check *)



(** ** The rewrite of the children arrays *)

Section Children.

Lemma append_assoc (a b c : string) : (a ++ b) ++ c = a ++ b ++ c.
Proof.
  induction a as [|x a IH]; [reflexivity|].
  change (String x (a ++ b) ++ c = String x (a ++ b ++ c)).
  change (String x ((a ++ b) ++ c) = String x (a ++ b ++ c)).
  by rewrite IH.
Qed.

Lemma startswith_app_l (a b : string) : ∀ s,
  startswith (a ++ b) s = true → startswith a s = true.
Proof.
  induction a as [|x a IH]; intros s Hs; [by destruct s|].
  change (String x a ++ b) with (String x (a ++ b)) in Hs.
  destruct s as [|y s]; [done|]. cbn [startswith] in *.
  case_decide; [by apply IH|done].
Qed.

Lemma contains_app_l (a b : string) : ∀ s,
  contains (a ++ b) s = true → contains a s = true.
Proof.
  induction s as [|y s IH]; cbn [contains]; intros Hs.
  - apply orb_prop in Hs as [Hs|Hs]; [|done].
    apply startswith_app_l in Hs. by rewrite Hs.
  - apply orb_prop in Hs as [Hs|Hs].
    + apply startswith_app_l in Hs. by rewrite Hs.
    + rewrite (IH Hs). apply orb_true_r.
Qed.

Lemma replace_absent (old new s : string) :
  old ≠ "" → contains old s = false → replace old new s = s.
Proof.
  intros Hne Habsent. unfold replace. destruct old as [|c old]; [done|].
  by apply replace_from_absent.
Qed.

Lemma children_at_header (old s g1 g2 : string) (len : nat) :
  children_at old s = Some (g1, g2, len) → ∃ inner, g1 = "children = (" ++ inner.
Proof.
  unfold children_at. intros Hat.
  destruct (startswith "children = (" s); [|done].
  destruct (span_until _ _) as [[inner rest]|]; [|done].
  destruct (rfind old inner) as [i|]; [|done].
  injection Hat as <- _ _. eauto.
Qed.

Lemma findall_children_from_header (old s : string) : ∀ skip g,
  g ∈ findall_children_from old skip s → ∃ inner, g.1 = "children = (" ++ inner.
Proof.
  induction s as [|c s IH]; intros skip g Hg; [by apply elem_of_nil in Hg|].
  cbn [findall_children_from] in Hg. destruct skip as [|k]; [|by eapply IH].
  destruct (children_at old (String c s)) as [[[g1 g2] len]|] eqn:Hat;
    [|by eapply IH].
  apply elem_of_cons in Hg as [->|Hg]; [|by eapply IH].
  by eapply children_at_header.
Qed.

(** The pattern [fix_parent_references] looks for begins with the header
    twice: once written in the format string, once as the start of the
    first group of the match. *)
Lemma old_children_doubled (inner old g2 : string) :
  "children = (" ++ ("children = (" ++ inner) ++ old ++ g2 ++ ")"
  = "children = (children = (" ++ inner ++ old ++ g2 ++ ")".
Proof. by rewrite append_assoc. Qed.

Lemma replace_children_inert (old new text : string) (gs : list (string * string)) :
  contains "children = (children = (" text = false
  → (∀ g, g ∈ gs → ∃ inner, g.1 = "children = (" ++ inner)
  → foldl (fun text (g : string * string) =>
             replace ("children = (" ++ g.1 ++ old ++ g.2 ++ ")")
                     ("children = (" ++ g.1 ++ new ++ g.2 ++ ")") text)
          text gs = text.
Proof.
  intros Hnone. induction gs as [|g gs IH]; intros Hgs; [reflexivity|].
  cbn [foldl].
  assert (g ∈ g :: gs) as Hg by (apply elem_of_cons; by left).
  destruct (Hgs g Hg) as [inner Hrun].
  rewrite Hrun, old_children_doubled, replace_absent.
  - apply IH. intros g' Hg'. apply Hgs, elem_of_cons. by right.
  - discriminate.
  - apply not_true_is_false. intros Hin%contains_app_l. congruence.
Qed.

End Children.

(** X4. [XcodeProjectFixer.fix_parent_references] leaves every document in
    which no [children = (] is directly followed by another [children = (]
    unchanged, whatever the replacement map is: the text it searches for
    repeats that header, so it does not occur and nothing is replaced. *)
Theorem fix_parent_references_inert (m : XcodeProjectFixer.Machine) :
  contains "children = (children = ("
    (XcodeProjectFixer.content (XcodeProjectFixer.self m)) = false
  → (∀ entry,
        XcodeProjectFixer.fix_parent_reference
          (XcodeProjectFixer.content (XcodeProjectFixer.self m)) entry
        = XcodeProjectFixer.content (XcodeProjectFixer.self m))
    ∧ ∃ m',
        XcodeProjectFixer.fix_parent_references m = Return tt m'
        ∧ XcodeProjectFixer.self m' = XcodeProjectFixer.self m
        ∧ XcodeProjectFixer.world m' = XcodeProjectFixer.world m.
Proof.
  intros Hnone.
  assert (∀ entry,
            XcodeProjectFixer.fix_parent_reference
              (XcodeProjectFixer.content (XcodeProjectFixer.self m)) entry
            = XcodeProjectFixer.content (XcodeProjectFixer.self m)) as Hstep.
  { intros entry. unfold XcodeProjectFixer.fix_parent_reference.
    apply replace_children_inert; [done|].
    intros g. apply findall_children_from_header. }
  split; [done|].
  unfold XcodeProjectFixer.fix_parent_references, XcodeProjectFixer.set_content.
  eexists. split; [reflexivity|]. cbn [XcodeProjectFixer.self XcodeProjectFixer.world].
  split; [|reflexivity].
  assert (foldl XcodeProjectFixer.fix_parent_reference
            (XcodeProjectFixer.content (XcodeProjectFixer.self m))
            (XcodeProjectFixer.collision_map (XcodeProjectFixer.self m))
          = XcodeProjectFixer.content (XcodeProjectFixer.self m)) as ->.
  { induction (XcodeProjectFixer.collision_map (XcodeProjectFixer.self m))
      as [|entry rm IH]; [reflexivity|].
    cbn [foldl]. by rewrite Hstep. }
  by destruct (XcodeProjectFixer.self m).
Qed.

Lemma fix_parent_references_inert_witness :
  XcodeProjectFixer.fix_parent_reference Samples.core_group
    ("A1000001000000000000001A",
     {| XcodeProjectFixer.old_uuid := "A1000001000000000000001A";
        XcodeProjectFixer.new_group_uuid := "000102030405060708090A0B";
        XcodeProjectFixer.group_name := "Core";
        XcodeProjectFixer.associated_file := "StreamApp.swift" |})
  = Samples.core_group.
Proof.
  apply (proj1 (fix_parent_references_inert (Samples.loaded Samples.core_group)
                  ltac:(vm_compute; reflexivity))).
Defined.

(** ** Runs that end early *)

Lemma detect_collisions_empty (text : string) :
  XcodeProjectFixer.detect_collisions text = ∅
  ↔ ∀ u, occurrence_count text u ≤ 2.
Proof.
  rewrite map_empty. split; intros Hall u.
  - destruct (decide (occurrence_count text u ≤ 2)) as [|Hmany]; [done|].
    specialize (Hall u).
    assert (XcodeProjectFixer.detect_collisions text !! u
            = Some (occurrence_count text u)) as Hsome
      by (apply detect_collisions_Some; split; [done|lia]).
    congruence.
  - apply eq_None_not_Some. intros [c [-> Hc]%detect_collisions_Some].
    specialize (Hall u). lia.
Qed.

(** X5. When the file can be read and no token occurs more than twice in
    it, a run of [XcodeProjectFixer.fix_project] returns [True] after
    printing that there is no collision, and does nothing else: it draws
    no entropy, calls no save, and leaves [project.pbxproj] and the
    temporary file as they were.  The early exit is taken for exactly
    these documents. *)
Theorem fix_project_read_only (fuel : nat) (env : Env) (text : string)
    (tmp : option string) :
  (XcodeProjectFixer.detect_collisions text = ∅
   ↔ ∀ u, occurrence_count text u ≤ 2)
  ∧ (read_fails env = false
     → (∀ u, occurrence_count text u ≤ 2)
     → ∃ m',
         XcodeProjectFixer.fix_project fuel env
           (XcodeProjectFixer.start (boot (Some text) tmp)) = Return true m'
         ∧ XcodeProjectFixer.world m'
           = {| pbxproj := Some text; pbxproj_tmp := tmp; writes := 0; drawn := 0;
                saves := 0; stdout := [NoCollisionsDetected] |}).
Proof.
  split; [apply detect_collisions_empty|].
  intros Hread Hfew%detect_collisions_empty.
  destruct (fix_project_no_collision fuel env text tmp Hread Hfew) as (m' & Hrun & Hw).
  exists m'. split; [done|]. by rewrite Hw.
Qed.

Lemma fix_project_read_only_witness :
  ∃ m',
    XcodeProjectFixer.fix_project 0 (Samples.calm Samples.counting_bytes)
      (XcodeProjectFixer.start (boot (Some Samples.two_linked_objects) None))
      = Return true m'
    ∧ XcodeProjectFixer.world m'
      = {| pbxproj := Some Samples.two_linked_objects; pbxproj_tmp := None;
           writes := 0; drawn := 0; saves := 0; stdout := [NoCollisionsDetected] |}.
Proof.
  apply (proj2 (fix_project_read_only 0 (Samples.calm Samples.counting_bytes)
                  Samples.two_linked_objects None)).
  - reflexivity.
  - apply (proj1 (detect_collisions_empty Samples.two_linked_objects)).
    vm_compute. reflexivity.
Defined.

(** ** Exceptions *)

Section Exceptions.

Variables (fuel : nat) (env : Env).

Lemma handler_returns (m : XcodeProjectFixer.Machine) :
  ∃ (b : bool) m',
    (run XcodeProjectFixer.say [CriticalError] in
     run XcodeProjectFixer.rollback env in XcodeProjectFixer.ret false) m
    = Return false m'
    ∧ XcodeProjectFixer.content (XcodeProjectFixer.self m')
      = XcodeProjectFixer.original_content (XcodeProjectFixer.self m)
    ∧ stdout (XcodeProjectFixer.world m')
      = (stdout (XcodeProjectFixer.world m)
         ++ [CriticalError; RollingBack; (if b then ProjectSaved else SaveError);
             (if b then RollbackSuccessful else RollbackFailed)])%list
    ∧ (b = true ↔ save_succeeds env (saves (XcodeProjectFixer.world m)))
    ∧ pbxproj (XcodeProjectFixer.world m')
      = (if b then Some (XcodeProjectFixer.original_content (XcodeProjectFixer.self m))
         else pbxproj (XcodeProjectFixer.world m))
    ∧ writes (XcodeProjectFixer.world m')
      = (if b then S (writes (XcodeProjectFixer.world m))
         else writes (XcodeProjectFixer.world m)).
Proof.
  unfold bind at 1, XcodeProjectFixer.say. unfold bind at 1.
  match goal with |- context [XcodeProjectFixer.rollback env ?x] =>
    destruct (rollback_cases env x) as (b & m' & -> & Hc & _ & Hout & Hb & Hfile & Hw)
  end.
  cbn [XcodeProjectFixer.self XcodeProjectFixer.world print stdout pbxproj writes
       saves] in *.
  exists b, m'. unfold XcodeProjectFixer.ret.
  rewrite Hout, <- app_assoc. done.
Qed.

End Exceptions.

(** X6. When [project.pbxproj] cannot be read, or is not there, a run of
    [XcodeProjectFixer.fix_project] returns [False] after a rollback to
    the snapshot, which is still the empty text of [__init__]: when that
    save goes through, [project.pbxproj] ends up holding the empty text,
    and otherwise it is left as it was. *)
Theorem load_failure_saves_empty_snapshot (fuel : nat) (env : Env)
    (file tmp : option string) :
  read_fails env = true ∨ file = None
  → ∃ m',
      XcodeProjectFixer.fix_project fuel env (XcodeProjectFixer.start (boot file tmp))
        = Return false m'
      ∧ (save_succeeds env 0
         → pbxproj (XcodeProjectFixer.world m') = Some ""
           ∧ writes (XcodeProjectFixer.world m') = 1
           ∧ stdout (XcodeProjectFixer.world m')
             = [CriticalError; RollingBack; ProjectSaved; RollbackSuccessful])
      ∧ (¬ save_succeeds env 0
         → pbxproj (XcodeProjectFixer.world m') = file
           ∧ writes (XcodeProjectFixer.world m') = 0
           ∧ stdout (XcodeProjectFixer.world m')
             = [CriticalError; RollingBack; SaveError; RollbackFailed]).
Proof.
  intros Hfail.
  unfold XcodeProjectFixer.fix_project, try_except.
  unfold bind at 1, XcodeProjectFixer.load_project.
  assert ((if read_fails env
           then Raise (XcodeProjectFixer.start (boot file tmp))
           else match pbxproj (XcodeProjectFixer.world
                                 (XcodeProjectFixer.start (boot file tmp))) with
                | Some text =>
                    Return tt
                      {| XcodeProjectFixer.self :=
                           {| XcodeProjectFixer.content := text;
                              XcodeProjectFixer.original_content := text;
                              XcodeProjectFixer.collision_map :=
                                XcodeProjectFixer.collision_map
                                  (XcodeProjectFixer.self
                                     (XcodeProjectFixer.start (boot file tmp))) |};
                         XcodeProjectFixer.world :=
                           XcodeProjectFixer.world
                             (XcodeProjectFixer.start (boot file tmp)) |}
                | None => Raise (XcodeProjectFixer.start (boot file tmp))
                end)
          = Raise (XcodeProjectFixer.start (boot file tmp))) as ->.
  { destruct Hfail as [->| ->]; [done|]. by destruct (read_fails env). }
  destruct (handler_returns env (XcodeProjectFixer.start (boot file tmp)))
    as (b & m' & -> & _ & Hout & Hb & Hfile & Hw).
  cbn in Hout, Hb, Hfile, Hw.
  exists m'. split; [done|]. split; intros Hsave.
  - apply Hb in Hsave as ->. done.
  - destruct b; [by destruct Hsave; apply Hb|done].
Qed.

Lemma load_failure_saves_empty_snapshot_witness :
  ∃ m',
    XcodeProjectFixer.fix_project 0 Samples.unreadable
      (XcodeProjectFixer.start (boot (Some Samples.crafted) None))
      = Return false m'
    ∧ pbxproj (XcodeProjectFixer.world m') = Some "".
Proof.
  destruct (load_failure_saves_empty_snapshot 0 Samples.unreadable
              (Some Samples.crafted) None) as (m' & Hrun & Hsaved & _);
    [left; reflexivity|].
  exists m'. split; [exact Hrun|].
  apply Hsaved. split; reflexivity.
Defined.



(** ** What the rewrites preserve *)

Lemma length_append (a b : string) :
  String.length (a ++ b) = String.length a + String.length b.
Proof.
  induction a as [|x a IH]; [reflexivity|].
  change (String x a ++ b) with (String x (a ++ b)). cbn [String.length].
  by rewrite IH.
Qed.

Lemma char_count_append (c : ascii) (a b : string) :
  char_count c (a ++ b) = char_count c a + char_count c b.
Proof.
  induction a as [|x a IH]; [reflexivity|].
  change (String x a ++ b) with (String x (a ++ b)). cbn [char_count].
  case_decide; rewrite IH; reflexivity.
Qed.

Lemma count_char (c : ascii) (s : string) :
  count (String c "") s = char_count c s.
Proof.
  unfold count. induction s as [|a s IH]; [reflexivity|].
  cbn [count_from char_count startswith String.length Nat.sub].
  case_decide; case_decide; try congruence; by destruct s; rewrite <- ?IH.
Qed.

Lemma startswith_split (p : string) : ∀ s,
  startswith p s = true → s = p ++ drop (String.length p) s.
Proof.
  induction p as [|a p IH]; intros [|c s] Hs; try done.
  cbn [startswith] in Hs. case_decide as Hac; [|done]. subst c.
  cbn [String.length drop].
  change (String a p ++ ?x) with (String a (p ++ x)). f_equal. by apply IH.
Qed.

(** A match of the group pattern begins with the header and ends with the
    closing brace, and it is a piece of the text. *)
Lemma group_definition_at_shape (old s matched : string) :
  group_definition_at old s = Some matched
  → ∃ body, matched = (old ++ " = {") ++ body ++ "}"
            ∧ startswith matched s = true.
Proof.
  unfold group_definition_at. intros Hat.
  destruct (startswith (old ++ " = {") s) eqn:Hhead; [|done].
  destruct (span_until _ _) as [[body rest]|] eqn:Hspan; [|done].
  destruct (contains _ _); [|done].
  injection Hat as <-. exists body. split; [done|].
  rewrite (startswith_split _ _ Hhead) at 1.
  generalize (drop (String.length (old ++ " = {")) s) body rest Hspan.
  generalize (old ++ " = {"). clear.
  intros header. induction header as [|a header IH]; intros t body rest Hspan.
  - change ("" ++ ?x) with x. revert body rest Hspan.
    induction t as [|c t IHt]; intros body rest Hspan; [done|].
    cbn [span_until] in Hspan. case_decide as Hc.
    + simplify_eq. cbn. by repeat case_decide.
    + destruct (span_until _ t) as [[body' rest']|]; [|done].
      simplify_eq.
      change (String c body' ++ ?x) with (String c (body' ++ x)).
      cbn [startswith]. case_decide; [|done]. by eapply IHt.
  - change (String a header ++ ?x) with (String a (header ++ x)).
    cbn [startswith]. case_decide; [|done]. by eapply IH.
Qed.

Lemma search_group_definition_shape (old : string) : ∀ s matched,
  search_group_definition old s = Some matched
  → ∃ body, matched = (old ++ " = {") ++ body ++ "}"
            ∧ contains matched s = true.
Proof.
  induction s as [|c s IH]; intros matched Hfound;
    cbn [search_group_definition] in Hfound;
    destruct (group_definition_at old _) as [m|] eqn:Hat.
  - injection Hfound as ->.
    destruct (group_definition_at_shape _ _ _ Hat) as (body & -> & Hpre).
    exists body. split; [done|]. by apply contains_here.
  - done.
  - injection Hfound as ->.
    destruct (group_definition_at_shape _ _ _ Hat) as (body & -> & Hpre).
    exists body. split; [done|]. by apply contains_here.
  - destruct (IH _ Hfound) as (body & -> & Hin).
    exists body. split; [done|]. by apply contains_later.
Qed.

Section Measures.

(** A measure of texts that adds up over concatenation: the length, or
    the number of occurrences of a character. *)
Variable f : string → nat.
Hypothesis f_app : ∀ a b, f (a ++ b) = f a + f b.

Lemma measure_cons (c : ascii) (s : string) : f (String c s) = f (String c "") + f s.
Proof. by rewrite <- f_app. Qed.

Lemma measure_replace_from (old new : string) :
  old ≠ "" → f old = f new
  → ∀ s k, f (replace_from old new k s) = f (drop k s).
Proof.
  intros Hne Hf. induction s as [|c s IH]; intros [|k]; try reflexivity.
  - cbn [replace_from drop].
    destruct (startswith old (String c s)) eqn:Hhere.
    + rewrite f_app, IH, <- Hf.
      rewrite (startswith_split _ _ Hhere) at 1. rewrite f_app. f_equal.
      destruct old as [|a old]; [done|].
      cbn [String.length drop].
      by replace (S (String.length old) - 1) with (String.length old) by lia.
    + rewrite (measure_cons c s), (measure_cons c (replace_from old new 0 s)).
      f_equal. apply (IH 0).
  - cbn [replace_from drop]. apply IH.
Qed.

Lemma measure_replace (old new s : string) :
  old ≠ "" → f old = f new → f (replace old new s) = f s.
Proof.
  intros Hne Hf. unfold replace. destruct old as [|a old]; [done|].
  by rewrite measure_replace_from.
Qed.

Lemma measure_replace_first (old new : string) :
  f old = f new → ∀ s, f (replace_first old new s) = f s.
Proof.
  intros Hf. induction s as [|c s IH]; [reflexivity|].
  cbn [replace_first]. destruct (startswith old (String c s)) eqn:Hhere.
  - rewrite f_app, <- Hf, <- f_app. by rewrite <- startswith_split.
  - rewrite (measure_cons c s), (measure_cons c (replace_first old new s)).
    by rewrite IH.
Qed.

(** *** [PreciseXcodeProjectFixer] *)

Lemma measure_precise_group text entry text' :
  f entry.1 = f entry.2
  → PreciseXcodeProjectFixer.fix_group_definition text entry = Some text'
  → f text' = f text.
Proof.
  intros Hf. unfold PreciseXcodeProjectFixer.fix_group_definition.
  destruct (PreciseXcodeProjectFixer.group_name_of _ _) as [name|]; [|done].
  intros [= <-]. destruct (contains _ text); [|done].
  apply measure_replace.
  - intros Hempty%(f_equal String.length). revert Hempty.
    rewrite !length_append. cbn. lia.
  - by rewrite !(f_app _ (" /* " ++ _)), Hf.
Qed.

Lemma measure_precise_reference text entry text' :
  f entry.1 = f entry.2
  → PreciseXcodeProjectFixer.fix_parent_reference text entry = Some text'
  → f text' = f text.
Proof.
  intros Hf. unfold PreciseXcodeProjectFixer.fix_parent_reference.
  destruct (PreciseXcodeProjectFixer.group_name_of _ _) as [name|]; [|done].
  intros [= <-]. case_decide; [|done].
  apply measure_replace.
  - intros Hempty%(f_equal String.length). revert Hempty.
    rewrite !length_append. cbn. lia.
  - by rewrite !(f_app _ (" /* " ++ _)), Hf.
Qed.

Lemma measure_rewrite_all step rm :
  (∀ text entry text', f entry.1 = f entry.2
                       → step text entry = Some text' → f text' = f text)
  → Forall (fun entry => f entry.1 = f entry.2) rm
  → ∀ text text', PreciseXcodeProjectFixer.rewrite_all step text rm = Some text'
                  → f text' = f text.
Proof.
  intros Hstep. induction 1 as [|entry rm Hentry _ IH]; intros text text'.
  - by intros [= <-].
  - cbn [PreciseXcodeProjectFixer.rewrite_all].
    destruct (step text entry) as [text1|] eqn:Hone; [|done].
    intros Hrest%IH. rewrite Hrest. by eapply Hstep.
Qed.

(** *** [XcodeProjectFixer] *)

Lemma measure_group text entry :
  f entry.1 = f (XcodeProjectFixer.new_group_uuid entry.2)
  → f (XcodeProjectFixer.fix_group_definition text entry) = f text.
Proof.
  intros Hf. unfold XcodeProjectFixer.fix_group_definition.
  destruct (search_group_definition entry.1 text) as [matched|] eqn:Hfound;
    [|done].
  apply measure_replace; [|symmetry; by apply measure_replace_first].
  destruct (search_group_definition_shape _ _ _ Hfound) as (body & -> & _).
  intros Hempty%(f_equal String.length). revert Hempty.
  rewrite !length_append. cbn. lia.
Qed.

Lemma measure_reference text entry :
  f entry.1 = f (XcodeProjectFixer.new_group_uuid entry.2)
  → f (XcodeProjectFixer.fix_parent_reference text entry) = f text.
Proof.
  intros Hf. unfold XcodeProjectFixer.fix_parent_reference.
  generalize (findall_children entry.1 text) as gs. intros gs. revert text.
  induction gs as [|g gs IH]; intros text; [reflexivity|].
  cbn [foldl]. rewrite IH. apply measure_replace.
  - intros Hempty%(f_equal String.length). revert Hempty.
    rewrite !length_append. cbn. lia.
  - by rewrite !f_app, Hf.
Qed.

Lemma measure_foldl (step : string → string * XcodeProjectFixer.Replacement → string) rm :
  (∀ text entry, f entry.1 = f (XcodeProjectFixer.new_group_uuid entry.2)
                 → f (step text entry) = f text)
  → Forall (fun entry => f entry.1 = f (XcodeProjectFixer.new_group_uuid entry.2)) rm
  → ∀ text, f (foldl step text rm) = f text.
Proof.
  intros Hstep. induction 1 as [|entry rm Hentry _ IH]; intros text; [reflexivity|].
  cbn [foldl]. rewrite IH. by apply Hstep.
Qed.

End Measures.

Lemma uuid_chars_char_count (c : ascii) :
  uuid_char c = false
  → ∀ n u, uuid_chars n u = true → String.length u = n → char_count c u = 0.
Proof.
  intros Hc. induction n as [|n IH]; intros [|a u] Hu Hlen; try done.
  cbn [uuid_chars] in Hu. apply andb_prop in Hu as [Ha Hu].
  cbn [char_count]. case_decide; [congruence|].
  apply IH; [done|]. cbn in Hlen. lia.
Qed.

Lemma identifiers_measure_alike (old new : string) :
  is_identifier old → is_identifier new
  → String.length old = String.length new
    ∧ ∀ c, uuid_char c = false → char_count c old = char_count c new.
Proof.
  intros [Hlo Hco] [Hln Hcn]. split; [congruence|]. intros c Hc.
  by rewrite (uuid_chars_char_count c Hc 24 old), (uuid_chars_char_count c Hc 24 new).
Qed.

Lemma collision_fixes_identifiers :
  Forall is_identifier PreciseXcodeProjectFixer.collision_fixes.*1.
Proof. repeat constructor. Qed.

Lemma known_collisions_identifiers :
  Forall is_identifier XcodeProjectFixer.known_collisions.*1.
Proof. repeat constructor. Qed.

Lemma group_name_of_key (table : list (string * string)) (old : string) :
  old ∈ table.*1 → is_Some (PreciseXcodeProjectFixer.group_name_of table old).
Proof.
  induction table as [|[k name] table IH]; [by intros ?%elem_of_nil|].
  rewrite fmap_cons. cbn [fst PreciseXcodeProjectFixer.group_name_of].
  intros [->|Hin]%elem_of_cons; case_decide; try done; try by eexists.
  by apply IH.
Qed.

Lemma rewrite_all_returns step (rm : list (string * string)) :
  (∀ text entry, entry ∈ rm → is_Some (step text entry))
  → ∀ text, is_Some (PreciseXcodeProjectFixer.rewrite_all step text rm).
Proof.
  induction rm as [|entry rm IH]; intros Hstep text; [by eexists|].
  cbn [PreciseXcodeProjectFixer.rewrite_all].
  destruct (Hstep text entry) as [text' ->]; [apply elem_of_cons; by left|].
  apply IH. intros t e He. apply Hstep, elem_of_cons. by right.
Qed.

Lemma precise_map_entries (fuel : nat) (env : Env) (text : string) (pos : nat)
    (rm : list (string * string)) (pos' : nat) :
  PreciseXcodeProjectFixer.generate_replacement_uuids fuel env text pos
    = Some (rm, pos')
  → ∀ entry, entry ∈ rm
             → entry.1 ∈ PreciseXcodeProjectFixer.collision_fixes.*1
               ∧ is_identifier entry.1 ∧ is_identifier entry.2.
Proof.
  intros (Hkeys & _ & Hnews)%replacement_loop_news entry Hentry.
  assert (entry.1 ∈ PreciseXcodeProjectFixer.collision_fixes.*1) as Hkey.
  { rewrite <- Hkeys. apply list_elem_of_fmap. eauto. }
  split; [done|]. split.
  - by apply (proj1 (Forall_forall _ _) collision_fixes_identifiers).
  - apply Hnews, list_elem_of_fmap. eauto.
Qed.

(** With a replacement map made by [generate_replacement_uuids], the two
    rewriting loops return, and they preserve every measure that adds up
    over concatenation and is the same on all identifiers. *)
Lemma precise_rewrite_measure (fuel : nat) (env : Env) (text : string)
    (pos : nat) (rm : list (string * string)) (pos' : nat) :
  PreciseXcodeProjectFixer.generate_replacement_uuids fuel env text pos
    = Some (rm, pos')
  → ∃ text1 text2,
      PreciseXcodeProjectFixer.rewrite_all
        PreciseXcodeProjectFixer.fix_group_definition text rm = Some text1
      ∧ PreciseXcodeProjectFixer.rewrite_all
          PreciseXcodeProjectFixer.fix_parent_reference text1 rm = Some text2
      ∧ ∀ f : string → nat,
          (∀ a b, f (a ++ b) = f a + f b)
          → (∀ old new, is_identifier old → is_identifier new → f old = f new)
          → f text2 = f text.
Proof.
  intros Hgen. pose proof (precise_map_entries _ _ _ _ _ _ Hgen) as Hentries.
  destruct (rewrite_all_returns PreciseXcodeProjectFixer.fix_group_definition rm)
    with (text := text) as [text1 Hone].
  { intros t entry [Hkey _]%Hentries.
    unfold PreciseXcodeProjectFixer.fix_group_definition.
    by destruct (group_name_of_key _ _ Hkey) as [name ->]. }
  destruct (rewrite_all_returns PreciseXcodeProjectFixer.fix_parent_reference rm)
    with (text := text1) as [text2 Htwo].
  { intros t entry [Hkey _]%Hentries.
    unfold PreciseXcodeProjectFixer.fix_parent_reference.
    by destruct (group_name_of_key _ _ Hkey) as [name ->]. }
  exists text1, text2. split; [done|]. split; [done|].
  intros f Happ Hids.
  assert (Forall (fun entry : string * string => f entry.1 = f entry.2) rm) as Hrm.
  { apply Forall_forall. intros entry (_ & Hold & Hnew)%Hentries. by apply Hids. }
  rewrite (measure_rewrite_all f _ rm (measure_precise_reference f Happ) Hrm _ _ Htwo).
  apply (measure_rewrite_all f _ rm (measure_precise_group f Happ) Hrm _ _ Hone).
Qed.

(** X8. In [PreciseXcodeProjectFixer], with a replacement map made by
    [generate_replacement_uuids], neither [fix_group_definitions] nor
    [fix_parent_references] raises a [KeyError], and the text they leave
    has the length of the text they started from and as many occurrences
    of every character outside [[A-F0-9]]: braces, parentheses and
    line ends are neither added nor lost. *)
Theorem precise_rewrite_preserves_shape (fuel : nat) (env : Env) (text : string)
    (pos : nat) (rm : list (string * string)) (pos' : nat) :
  PreciseXcodeProjectFixer.generate_replacement_uuids fuel env text pos
    = Some (rm, pos')
  → ∃ text1 text2,
      PreciseXcodeProjectFixer.rewrite_all
        PreciseXcodeProjectFixer.fix_group_definition text rm = Some text1
      ∧ PreciseXcodeProjectFixer.rewrite_all
          PreciseXcodeProjectFixer.fix_parent_reference text1 rm = Some text2
      ∧ String.length text2 = String.length text
      ∧ ∀ c, uuid_char c = false
             → count (String c "") text2 = count (String c "") text.
Proof.
  intros (text1 & text2 & Hone & Htwo & Hmeasure)%precise_rewrite_measure.
  exists text1, text2. split; [done|]. split; [done|]. split.
  - apply Hmeasure; [apply length_append|].
    intros old new Hold Hnew. by apply identifiers_measure_alike.
  - intros c Hc. rewrite !count_char.
    apply (Hmeasure (char_count c)); [apply char_count_append|].
    intros old new Hold Hnew. by apply identifiers_measure_alike.
Qed.

Lemma precise_rewrite_preserves_shape_witness :
  ∃ rm text1 text2,
    PreciseXcodeProjectFixer.rewrite_all
      PreciseXcodeProjectFixer.fix_group_definition Samples.core_group rm = Some text1
    ∧ PreciseXcodeProjectFixer.rewrite_all
        PreciseXcodeProjectFixer.fix_parent_reference text1 rm = Some text2
    ∧ String.length text2 = String.length Samples.core_group.
Proof.
  destruct (PreciseXcodeProjectFixer.generate_replacement_uuids 1
              (Samples.calm Samples.counting_bytes) Samples.core_group 0)
    as [[rm pos']|] eqn:Hgen; [|vm_compute in Hgen; discriminate Hgen].
  destruct (precise_rewrite_preserves_shape _ _ _ _ _ _ Hgen)
    as (text1 & text2 & Hone & Htwo & Hlen & _).
  exists rm, text1, text2.
  split; [exact Hone|]. split; [exact Htwo|exact Hlen].
Defined.

Section Rewrite.

Variables (fuel : nat) (env : Env).
Hypothesis Horder : sound_order env.

Lemma map_entries (m : XcodeProjectFixer.Machine)
    (rm : list (string * XcodeProjectFixer.Replacement)) m' :
  XcodeProjectFixer.generate_replacement_uuids fuel env m = Return rm m'
  → ∀ entry, entry ∈ rm
             → is_identifier entry.1
               ∧ is_identifier (XcodeProjectFixer.new_group_uuid entry.2).
Proof.
  unfold XcodeProjectFixer.generate_replacement_uuids.
  destruct (XcodeProjectFixer.generate_unique_uuid_set _ _ _ _ _)
    as [[new_uuids pos']|] eqn:Hset; [|done].
  destruct (XcodeProjectFixer.build_replacement_map _ _ _) as [rm'|] eqn:Hbuild;
    [|done].
  intros [= -> _] entry Hentry.
  apply build_replacement_map_news in Hbuild as [Hnews Hkeys].
  assert ((entry.1, XcodeProjectFixer.new_group_uuid entry.2) ∈ mapping rm) as Hpair.
  { unfold mapping. apply list_elem_of_fmap. eauto. }
  split.
  - apply (proj1 (Forall_forall _ _) known_collisions_identifiers).
    rewrite <- Hkeys. apply list_elem_of_fmap. by exists (entry.1, XcodeProjectFixer.new_group_uuid entry.2).
  - assert (XcodeProjectFixer.new_group_uuid entry.2 ∈ (mapping rm).*2) as Hnew.
    { apply list_elem_of_fmap. by exists (entry.1, XcodeProjectFixer.new_group_uuid entry.2). }
    rewrite Hnews in Hnew. apply elem_of_take_drop in Hnew.
    rewrite (Horder new_uuids) in Hnew. apply elem_of_elements in Hnew.
    unfold XcodeProjectFixer.generate_unique_uuid_set in Hset.
    apply uuid_set_loop_sound in Hset as [_ Hminted].
    + by apply Hminted.
    + rewrite size_empty. lia.
    + intros u Hu. by apply elem_of_empty in Hu.
Qed.

End Rewrite.

(** X9. In [XcodeProjectFixer], when Python lists the set of new
    identifiers soundly, phases 2 and 3 of a run never raise, and the text
    [fix_group_definitions] and [fix_parent_references] leave has the
    length of the text that was loaded and as many occurrences of every
    character outside [[A-F0-9]]: the difference between opening and
    closing braces, and between opening and closing parentheses, that
    [validate_xcode_format] computes is the one of the loaded text. *)
Theorem rewrite_preserves_shape (fuel : nat) (env : Env)
    (m : XcodeProjectFixer.Machine) :
  sound_order env
  → match XcodeProjectFixer.generate_and_apply fuel env m with
    | Return _ m' =>
        let text := XcodeProjectFixer.content (XcodeProjectFixer.self m) in
        let text' := XcodeProjectFixer.content (XcodeProjectFixer.self m') in
        String.length text' = String.length text
        ∧ ∀ c, uuid_char c = false
               → count (String c "") text' = count (String c "") text
    | Raise _ => False
    | OutOfFuel => True
    end.
Proof.
  intros Horder. unfold XcodeProjectFixer.generate_and_apply. unfold bind at 1.
  destruct (XcodeProjectFixer.generate_replacement_uuids fuel env m)
    as [rm m1|m1|] eqn:Hgen; [| |done].
  - pose proof (map_entries fuel env Horder m rm m1 Hgen) as Hentries.
    assert (XcodeProjectFixer.content (XcodeProjectFixer.self m1)
            = XcodeProjectFixer.content (XcodeProjectFixer.self m)
            ∧ XcodeProjectFixer.collision_map (XcodeProjectFixer.self m1) = rm)
      as [Hsame Hmap].
    { revert Hgen. unfold XcodeProjectFixer.generate_replacement_uuids.
      destruct (XcodeProjectFixer.generate_unique_uuid_set _ _ _ _ _)
        as [[new_uuids pos']|]; [|done].
      destruct (XcodeProjectFixer.build_replacement_map _ _ _); [|done].
      by intros [= <- <-]. }
    unfold bind, XcodeProjectFixer.fix_group_definitions,
      XcodeProjectFixer.fix_parent_references, XcodeProjectFixer.set_content.
    cbn [XcodeProjectFixer.self XcodeProjectFixer.content
         XcodeProjectFixer.collision_map].
    rewrite Hmap, Hsame.
    assert (∀ f : string → nat,
              (∀ a b, f (a ++ b) = f a + f b)
              → (∀ old new, is_identifier old → is_identifier new → f old = f new)
              → ∀ text,
                  f (foldl XcodeProjectFixer.fix_parent_reference
                       (foldl XcodeProjectFixer.fix_group_definition text rm) rm)
                  = f text) as Hmeasure.
    { intros f Happ Hids text.
      assert (Forall (fun entry : string * XcodeProjectFixer.Replacement =>
                        f entry.1 = f (XcodeProjectFixer.new_group_uuid entry.2)) rm)
        as Hrm.
      { apply Forall_forall. intros entry [Hold Hnew]%Hentries. by apply Hids. }
      rewrite (measure_foldl f _ rm (measure_reference f Happ) Hrm).
      apply (measure_foldl f _ rm (measure_group f Happ) Hrm). }
    split.
    + apply Hmeasure; [apply length_append|].
      intros old new Hold Hnew. by apply identifiers_measure_alike.
    + intros c Hc. rewrite !count_char.
      apply (Hmeasure (char_count c)); [apply char_count_append|].
      intros old new Hold Hnew. by apply identifiers_measure_alike.
  - revert Hgen. unfold XcodeProjectFixer.generate_replacement_uuids.
    destruct (XcodeProjectFixer.generate_unique_uuid_set _ _ _ _ _)
      as [[new_uuids pos']|] eqn:Hset; [|done].
    destruct (XcodeProjectFixer.build_replacement_map _ _ _) as [rm|] eqn:Hbuild;
      [done|].
    exfalso.
    unfold XcodeProjectFixer.generate_unique_uuid_set in Hset.
    apply uuid_set_loop_sound in Hset as [Hsize _].
    + assert (length (set_order env new_uuids)
              = length XcodeProjectFixer.known_collisions) as Hlen.
      { rewrite (Horder new_uuids). by rewrite <- Hsize. }
      revert Hbuild Hlen. generalize (set_order env new_uuids).
      intros l. do 11 (destruct l as [|? l]; try done).
    + rewrite size_empty. lia.
    + intros u Hu. by apply elem_of_empty in Hu.
Qed.

Lemma rewrite_preserves_shape_witness :
  match XcodeProjectFixer.generate_and_apply 10 (Samples.calm Samples.crafted_entropy)
          (Samples.loaded Samples.crafted) with
  | Return _ m' =>
      String.length (XcodeProjectFixer.content (XcodeProjectFixer.self m'))
      = String.length Samples.crafted
  | _ => False
  end.
Proof.
  pose proof (rewrite_preserves_shape 10 (Samples.calm Samples.crafted_entropy)
                (Samples.loaded Samples.crafted)
                (sound_order_calm Samples.crafted_entropy)) as Hshape.
  destruct (XcodeProjectFixer.generate_and_apply 10 _ _) as [u m'|m'|] eqn:Hrun.
  - apply Hshape.
  - exact Hshape.
  - vm_compute in Hrun. discriminate Hrun.
Defined.

(** ** Keys that do not occur in the document *)

Section Absent.

Lemma contains_tail (x : ascii) (p : string) : ∀ s,
  contains (String x p) s = true → contains p s = true.
Proof.
  induction s as [|c s IH]; cbn [contains startswith]; [done|].
  intros [Hhere|Hlater]%orb_prop.
  - case_decide; [|done]. by apply contains_later, contains_here.
  - by apply contains_later, IH.
Qed.

Lemma contains_app_r (a b s : string) :
  contains (a ++ b) s = true → contains b s = true.
Proof.
  induction a as [|x a IH]; [done|].
  change (String x a ++ b) with (String x (a ++ b)).
  intros Hin%contains_tail. by apply IH.
Qed.

Lemma absent_nonempty (p s : string) : contains p s = false → p ≠ "".
Proof. intros Hp ->. by destruct s. Qed.

Lemma search_group_definition_absent (old text : string) :
  contains old text = false → search_group_definition old text = None.
Proof.
  intros Habsent. apply eq_None_not_Some. intros [matched Hfound].
  apply search_group_definition_shape in Hfound as (body & -> & Hin).
  do 2 apply contains_app_l in Hin. congruence.
Qed.

Lemma fix_group_definition_absent text entry :
  contains entry.1 text = false
  → XcodeProjectFixer.fix_group_definition text entry = text.
Proof.
  intros Habsent. unfold XcodeProjectFixer.fix_group_definition.
  by rewrite search_group_definition_absent.
Qed.

Lemma fix_parent_reference_absent text entry :
  contains entry.1 text = false
  → XcodeProjectFixer.fix_parent_reference text entry = text.
Proof.
  intros Habsent. unfold XcodeProjectFixer.fix_parent_reference.
  generalize (findall_children entry.1 text). intros gs.
  induction gs as [|g gs IH]; [reflexivity|].
  cbn [foldl]. rewrite replace_absent; [exact IH|discriminate|].
  apply not_true_is_false. intros Hin.
  do 2 apply contains_app_r in Hin. apply contains_app_l in Hin. congruence.
Qed.

Lemma precise_fix_group_definition_absent text entry text' :
  contains entry.1 text = false
  → PreciseXcodeProjectFixer.fix_group_definition text entry = Some text'
  → text' = text.
Proof.
  intros Habsent. unfold PreciseXcodeProjectFixer.fix_group_definition.
  destruct (PreciseXcodeProjectFixer.group_name_of _ _) as [name|]; [|done].
  intros [= <-].
  destruct (contains (entry.1 ++ _) text) eqn:Hin; [|done].
  apply contains_app_l in Hin. congruence.
Qed.

Lemma precise_fix_parent_reference_absent text entry text' :
  contains entry.1 text = false
  → PreciseXcodeProjectFixer.fix_parent_reference text entry = Some text'
  → text' = text.
Proof.
  intros Habsent. unfold PreciseXcodeProjectFixer.fix_parent_reference.
  destruct (PreciseXcodeProjectFixer.group_name_of _ _) as [name|]; [|done].
  intros [= <-]. case_decide; [|done].
  apply replace_absent.
  - intros Hempty%(f_equal String.length). revert Hempty.
    rewrite !length_append. cbn. lia.
  - apply not_true_is_false. intros Hin%contains_app_l. congruence.
Qed.

End Absent.

(** X10. An entry of the replacement map whose old identifier does not
    occur in the document changes nothing: in [XcodeProjectFixer] the turn
    of [fix_group_definitions] and the turn of [fix_parent_references]
    return the text as it is, and in [PreciseXcodeProjectFixer] each of
    them either raises a [KeyError] or returns the text as it is. *)
Theorem absent_key_changes_nothing (text old : string) :
  contains old text = false
  → (∀ entry, entry.1 = old
              → XcodeProjectFixer.fix_group_definition text entry = text
                ∧ XcodeProjectFixer.fix_parent_reference text entry = text)
    ∧ (∀ new text',
          PreciseXcodeProjectFixer.fix_group_definition text (old, new) = Some text'
          ∨ PreciseXcodeProjectFixer.fix_parent_reference text (old, new) = Some text'
          → text' = text).
Proof.
  intros Habsent. split.
  - intros entry <-. split.
    + by apply fix_group_definition_absent.
    + by apply fix_parent_reference_absent.
  - intros new text' [Hstep|Hstep].
    + exact (precise_fix_group_definition_absent text (old, new) text' Habsent Hstep).
    + exact (precise_fix_parent_reference_absent text (old, new) text' Habsent Hstep).
Qed.

Lemma absent_key_changes_nothing_witness :
  PreciseXcodeProjectFixer.fix_parent_reference Samples.core_group
    ("A1000001000000000000002A", "000102030405060708090A0B")
  = Some Samples.core_group.
Proof.
  destruct (PreciseXcodeProjectFixer.fix_parent_reference Samples.core_group
              ("A1000001000000000000002A", "000102030405060708090A0B"))
    as [text'|] eqn:Hstep; [|vm_compute in Hstep; discriminate Hstep].
  f_equal.
  apply (proj2 (absent_key_changes_nothing Samples.core_group
                  "A1000001000000000000002A" ltac:(vm_compute; reflexivity))
           "000102030405060708090A0B" text').
  right. exact Hstep.
Defined.

Section Unknown.

Import XcodeProjectFixer.

Variables (fuel : nat) (env : Env).





End Unknown.



(** ** What a result certifies *)

(** X12. A run of [XcodeProjectFixer.fix_project] returns [True] in two
    ways only.  Either no token of the file occurred more than twice, and
    the run wrote nothing; or some token did, and [project.pbxproj] now
    holds a text that passes the four checks, put there by the single
    write of the run. *)
Theorem true_result_certifies_file (fuel : nat) (env : Env)
    (file tmp : option string) (m' : XcodeProjectFixer.Machine) :
  XcodeProjectFixer.fix_project fuel env (XcodeProjectFixer.start (boot file tmp))
    = Return true m'
  → ∃ text text',
      file = Some text
      ∧ pbxproj (XcodeProjectFixer.world m') = Some text'
      ∧ (((∀ u, occurrence_count text u ≤ 2)
          ∧ text' = text
          ∧ writes (XcodeProjectFixer.world m') = 0
          ∧ stdout (XcodeProjectFixer.world m') = [NoCollisionsDetected])
         ∨ ((∃ u, 2 < occurrence_count text u)
            ∧ all_checks_pass text'
            ∧ (∀ u, occurrence_count text' u ≤ 1)
            ∧ writes (XcodeProjectFixer.world m') = 1
            ∧ FixCompleted ∈ stdout (XcodeProjectFixer.world m'))).
Proof.
  intros Hends%fix_project_ends. inversion Hends as [text Hfile Hnone| text text' w' Hfile Hcol Hpass Hsave Hnew Hwrites Hdone Hnv| |]; subst.
  - exists text, text. split; [done|]. split; [done|]. left.
    split; [by apply detect_collisions_empty|done].
  - exists text, text'. split; [done|]. split; [done|]. right.
    split; [|split; [done|split; [|done]]].
    + apply map_choose in Hcol as (u & c & [-> Hc]%detect_collisions_Some). eauto.
    + apply validate_uuid_uniqueness_true, Hpass.
Qed.

Lemma true_result_certifies_file_witness :
  ∃ m' text',
    XcodeProjectFixer.fix_project 0 (Samples.calm Samples.counting_bytes)
      (XcodeProjectFixer.start (boot (Some Samples.two_linked_objects) None))
      = Return true m'
    ∧ pbxproj (XcodeProjectFixer.world m') = Some text'.
Proof.
  destruct (XcodeProjectFixer.fix_project 0 (Samples.calm Samples.counting_bytes)
              (XcodeProjectFixer.start (boot (Some Samples.two_linked_objects) None)))
    as [[] m'|m'|] eqn:Hrun;
    [|vm_compute in Hrun; discriminate Hrun..].
  destruct (true_result_certifies_file _ _ _ _ _ Hrun) as (text & text' & _ & Hfile & _).
  exists m', text'. split; [reflexivity|exact Hfile].
Defined.



(** ** [str.replace] against [str.count] *)

Lemma replace_nonempty (old new s : string) :
  old ≠ "" → replace old new s = replace_from old new 0 s.
Proof. intros Hne. unfold replace. by destruct old. Qed.

Section Replaced.

Variables old new : string.
Hypothesis Hne : old ≠ "".

(** Every counted occurrence is replaced: the length changes by the
    difference of the two lengths, once per occurrence. *)
Lemma length_replace_from : ∀ s k,
  String.length (replace_from old new k s) + count_from old k s * String.length old
  = String.length (drop k s) + count_from old k s * String.length new.
Proof.
  induction s as [|c s IH]; intros [|k]; try reflexivity.
  - cbn [replace_from count_from drop].
    destruct (startswith old (String c s)) eqn:Hhere.
    + rewrite length_append. specialize (IH (String.length old - 1)).
      pose proof (f_equal String.length (startswith_split _ _ Hhere)) as Hsplit.
      rewrite length_append in Hsplit.
      destruct old as [|a old']; [done|].
      cbn [String.length drop] in *.
      replace (S (String.length old') - 1) with (String.length old') in * by lia.
      lia.
    + cbn [String.length]. specialize (IH 0). cbn [drop] in IH. lia.
  - cbn [replace_from count_from drop]. apply IH.
Qed.

Lemma length_replace (s : string) :
  String.length (replace old new s) + count old s * String.length old
  = String.length s + count old s * String.length new.
Proof.
  rewrite replace_nonempty by done. apply (length_replace_from s 0).
Qed.

Variables (g : ascii) (old' new' : string).
Hypothesis Hold : old = String g old'.
Hypothesis Hnew : new = String g new'.
Hypothesis Hfree_old : occurs g old' = false.
Hypothesis Hfree_new : occurs g new' = false.
Hypothesis Hapart : ∀ x, startswith old (new ++ x) = false.

Lemma contains_free_prefix (w y : string) :
  occurs g w = false → contains old y = false → contains old (w ++ y) = false.
Proof.
  intros Hw Hy. induction w as [|a w IH]; [done|].
  cbn [occurs] in Hw. case_decide as Hag; [done|].
  change (String a w ++ y) with (String a (w ++ y)).
  cbn [contains]. rewrite (IH Hw), orb_false_r.
  rewrite Hold. cbn [startswith]. case_decide; [congruence|done].
Qed.

(** No occurrence of [old] is left, and none is made by the replacement. *)
Lemma replace_from_complete (n : nat) : ∀ s,
  String.length s ≤ n → contains old (replace_from old new 0 s) = false.
Proof.
  induction n as [|n IH]; intros [|c s] Hlen; cbn [String.length] in Hlen;
    try lia; try (rewrite Hold; reflexivity).
  cbn [replace_from]. destruct (startswith old (String c s)) eqn:Hhere.
  - rewrite replace_from_skip. cbv beta.
    assert (contains old (replace_from old new 0 (drop (String.length old - 1) s))
            = false) as Hrest.
    { apply IH. pose proof (length_drop_le (String.length old - 1) s). lia. }
    revert Hrest.
    generalize (replace_from old new 0 (drop (String.length old - 1) s)).
    intros y Hrest. pose proof (Hapart y) as Hhead. revert Hhead.
    rewrite Hnew.
    change (String g new' ++ y) with (String g (new' ++ y)).
    intros Hhead. cbn [contains]. rewrite Hhead.
    by rewrite contains_free_prefix.
  - cbn [contains]. rewrite IH by lia. rewrite orb_false_r.
    apply not_true_is_false. intros Hpre. rewrite Hold in Hhere, Hpre.
    cbn [startswith] in Hhere, Hpre. case_decide; [|done].
    apply (startswith_replaced (String g old') new g new' Hnew) in Hpre;
      [congruence|done].
Qed.

End Replaced.

(** X14. The third edit of [fix_infoplist_conflict] leaves no
    [GENERATE_INFOPLIST_FILE = YES;] in the text, and makes it one
    character shorter for each one it found; the fourth edit makes the text
    43 characters longer for each [GENERATE_INFOPLIST_FILE = NO;] it
    found. *)
Theorem infoplist_settings_rewritten (text : string) :
  contains "GENERATE_INFOPLIST_FILE = YES;" (InfoPlist.disable_generation text) = false
  ∧ String.length (InfoPlist.disable_generation text)
    + count "GENERATE_INFOPLIST_FILE = YES;" text = String.length text
  ∧ String.length (InfoPlist.add_infoplist_setting text)
    = String.length text + 43 * count "GENERATE_INFOPLIST_FILE = NO;" text.
Proof.
  split; [|split].
  - unfold InfoPlist.disable_generation, InfoPlist.replace_token, replace.
    by apply (replace_from_complete _ _ "G"%char "ENERATE_INFOPLIST_FILE = YES;"
                "ENERATE_INFOPLIST_FILE = NO;" eq_refl eq_refl eq_refl eq_refl
                ltac:(intros x; vm_compute; reflexivity) (String.length text)).
  - unfold InfoPlist.disable_generation, InfoPlist.replace_token.
    pose proof (length_replace "GENERATE_INFOPLIST_FILE = YES;"
                  "GENERATE_INFOPLIST_FILE = NO;" ltac:(discriminate) text) as Hlen.
    change (String.length "GENERATE_INFOPLIST_FILE = YES;") with 30 in Hlen.
    change (String.length "GENERATE_INFOPLIST_FILE = NO;") with 29 in Hlen.
    lia.
  - unfold InfoPlist.add_infoplist_setting, InfoPlist.replace_token.
    match goal with |- context [replace ?o ?n text] =>
      pose proof (length_replace o n ltac:(discriminate) text) as Hlen;
      change (String.length n) with 72 in Hlen;
      change (String.length o) with 29 in Hlen
    end.
    lia.
Qed.



(** ** The replacement map and the table *)

Section Table.

Variable env : Env.

Lemma build_replacement_map_table known l : ∀ i rm,
  XcodeProjectFixer.build_replacement_map i known l = Some rm
  → Forall2 (fun (entry : string * XcodeProjectFixer.Replacement)
                 (row : string * (string * string)) =>
               entry.1 = row.1
               ∧ XcodeProjectFixer.old_uuid entry.2 = row.1
               ∧ XcodeProjectFixer.group_name entry.2 = row.2.1
               ∧ XcodeProjectFixer.associated_file entry.2 = row.2.2)
            rm known.
Proof.
  induction known as [|[old [name file]] known IH]; intros i rm Hbuild;
    cbn [XcodeProjectFixer.build_replacement_map] in Hbuild.
  - injection Hbuild as <-. constructor.
  - destruct (l !! i) as [new|]; [|done].
    destruct (XcodeProjectFixer.build_replacement_map (S i) known l)
      as [rm'|] eqn:Hrest; [|done].
    injection Hbuild as <-. constructor; [done|]. by eapply IH.
Qed.

Lemma uuid_set_loop_draws (count : nat) (existing : gset string) (fuel : nat) :
  ∀ uuids pos res pos',
    XcodeProjectFixer.uuid_set_loop fuel env count existing uuids pos
      = Some (res, pos')
    → pos + 12 * (count - size uuids) ≤ pos'.
Proof.
  induction fuel as [|fuel IH]; intros uuids pos res pos' Hloop;
    cbn [XcodeProjectFixer.uuid_set_loop] in Hloop.
  - case_decide; [done|]. injection Hloop as <- <-. lia.
  - case_decide as Hlt; [|injection Hloop as <- <-; lia].
    pose proof (generate_xcode_uuid_identifier env pos) as [_ Hpos].
    destruct (XcodeProjectFixer.generate_xcode_uuid env pos) as [uuid pos1].
    cbn [snd] in Hpos. subst pos1. case_decide as Hfresh.
    + destruct Hfresh as [_ Hnew]. apply IH in Hloop.
      rewrite size_union in Hloop by (by apply disjoint_singleton_l).
      rewrite size_singleton in Hloop. lia.
    + apply IH in Hloop. lia.
Qed.

Lemma mint_draws (existing : gset string) (fuel : nat) : ∀ pos new pos',
  PreciseXcodeProjectFixer.mint fuel env existing pos = Some (new, pos')
  → pos + 12 ≤ pos'.
Proof.
  induction fuel as [|fuel IH]; intros pos new pos' Hmint;
    cbn [PreciseXcodeProjectFixer.mint] in Hmint; [done|].
  pose proof (generate_xcode_uuid_identifier env pos) as [_ Hpos].
  change (XcodeProjectFixer.generate_xcode_uuid env pos)
    with (PreciseXcodeProjectFixer.generate_xcode_uuid env pos) in Hpos.
  destruct (PreciseXcodeProjectFixer.generate_xcode_uuid env pos) as [u pos1].
  cbn [snd] in Hpos. subst pos1. case_decide.
  - injection Hmint as _ <-. lia.
  - apply IH in Hmint. lia.
Qed.

Lemma replacement_loop_draws (fuel : nat) fixes : ∀ existing pos rm pos',
  PreciseXcodeProjectFixer.replacement_loop fuel env fixes existing pos
    = Some (rm, pos')
  → pos + 12 * length fixes ≤ pos'.
Proof.
  induction fixes as [|[old name] fixes IH]; intros existing pos rm pos' Hloop;
    cbn [PreciseXcodeProjectFixer.replacement_loop] in Hloop.
  - injection Hloop as _ <-. cbn. lia.
  - destruct (PreciseXcodeProjectFixer.mint fuel env existing pos)
      as [[new pos1]|] eqn:Hmint; [|done].
    destruct (PreciseXcodeProjectFixer.replacement_loop fuel env fixes
                ({[new]} ∪ existing) pos1) as [[rm' pos2]|] eqn:Hrest; [|done].
    injection Hloop as _ <-. apply mint_draws in Hmint. apply IH in Hrest.
    cbn [length]. lia.
Qed.

End Table.

(** X16. The replacement map does not depend on the collisions that were
    detected: whenever [generate_replacement_uuids] returns, the map has
    one entry for each of the ten keys of the table of its class, in the
    order of the table; in [XcodeProjectFixer] every entry carries the
    group name and the file of its key, and the map is stored in
    [collision_map] while the text is left alone.  At least 120 bytes of
    entropy have been drawn. *)
Theorem replacement_map_covers_table (fuel : nat) (env : Env) :
  (∀ m rm m',
      XcodeProjectFixer.generate_replacement_uuids fuel env m = Return rm m'
      → Forall2 (fun (entry : string * XcodeProjectFixer.Replacement)
                     (row : string * (string * string)) =>
                   entry.1 = row.1
                   ∧ XcodeProjectFixer.old_uuid entry.2 = row.1
                   ∧ XcodeProjectFixer.group_name entry.2 = row.2.1
                   ∧ XcodeProjectFixer.associated_file entry.2 = row.2.2)
                rm XcodeProjectFixer.known_collisions
        ∧ XcodeProjectFixer.collision_map (XcodeProjectFixer.self m') = rm
        ∧ XcodeProjectFixer.content (XcodeProjectFixer.self m')
          = XcodeProjectFixer.content (XcodeProjectFixer.self m)
        ∧ drawn (XcodeProjectFixer.world m) + 120
          ≤ drawn (XcodeProjectFixer.world m'))
  ∧ (∀ text pos rm pos',
        PreciseXcodeProjectFixer.generate_replacement_uuids fuel env text pos
          = Some (rm, pos')
        → rm.*1 = PreciseXcodeProjectFixer.collision_fixes.*1
          ∧ pos + 120 ≤ pos').
Proof.
  split.
  - intros m rm m'. unfold XcodeProjectFixer.generate_replacement_uuids.
    destruct (XcodeProjectFixer.generate_unique_uuid_set _ _ _ _ _)
      as [[new_uuids pos']|] eqn:Hset; [|done].
    destruct (XcodeProjectFixer.build_replacement_map _ _ _) as [rm'|] eqn:Hbuild;
      [|done].
    intros [= <- <-]. cbn. split; [|split; [done|split; [done|]]].
    + by apply build_replacement_map_table in Hbuild.
    + apply uuid_set_loop_draws in Hset. rewrite size_empty in Hset.
      cbn [length XcodeProjectFixer.known_collisions] in Hset. lia.
  - intros text pos rm pos' Hgen. split.
    + by apply replacement_loop_news in Hgen as [Hkeys _].
    + apply replacement_loop_draws in Hgen.
      cbn [length PreciseXcodeProjectFixer.collision_fixes] in Hgen. lia.
Qed.

Lemma replacement_map_covers_table_witness :
  ∃ rm pos',
    PreciseXcodeProjectFixer.generate_replacement_uuids 1
      (Samples.calm Samples.counting_bytes) Samples.core_group 0 = Some (rm, pos')
    ∧ rm.*1 = PreciseXcodeProjectFixer.collision_fixes.*1
    ∧ 0 + 120 ≤ pos'.
Proof.
  destruct (PreciseXcodeProjectFixer.generate_replacement_uuids 1
              (Samples.calm Samples.counting_bytes) Samples.core_group 0)
    as [[rm pos']|] eqn:Hgen; [|vm_compute in Hgen; discriminate Hgen].
  exists rm, pos'. split; [reflexivity|].
  exact (proj2 (replacement_map_covers_table 1 (Samples.calm Samples.counting_bytes))
           Samples.core_group 0 rm pos' Hgen).
Defined.

(** ** Saving and loading *)



(** ** The structure and format checks *)

(** X18. [validate_xcode_format] passes exactly when the text starts with
    the header and holds as many opening as closing braces and as many
    opening as closing parentheses.  It reports the first defect only, in
    the order header, braces, parentheses, and the number it prints is
    the number of opening ones minus the number of closing ones. *)
Theorem validate_xcode_format_exact (text : string) :
  ((XcodeProjectFixer.validate_xcode_format text).1 = true
   ↔ startswith "// !$*UTF8*$!" text = true
     ∧ char_count "{" text = char_count "}" text
     ∧ char_count "(" text = char_count ")" text)
  ∧ (startswith "// !$*UTF8*$!" text = true
     → char_count "{" text ≠ char_count "}" text
     → XcodeProjectFixer.validate_xcode_format text
       = (false, [UnbalancedBraces (Z.of_nat (char_count "{" text)
                                    - Z.of_nat (char_count "}" text))]))
  ∧ (startswith "// !$*UTF8*$!" text = true
     → char_count "{" text = char_count "}" text
     → char_count "(" text ≠ char_count ")" text
     → XcodeProjectFixer.validate_xcode_format text
       = (false, [UnbalancedParentheses (Z.of_nat (char_count "(" text)
                                         - Z.of_nat (char_count ")" text))])).
Proof.
  unfold XcodeProjectFixer.validate_xcode_format.
  rewrite !(count_char _ text).
  destruct (startswith "// !$*UTF8*$!" text); cbn [negb fst].
  - repeat case_decide; cbn [fst]; (split; [|split]); try done;
      try (split; [done|intros (_ & ? & ?); lia]);
      try (intros; lia); try (split; [intros _; split; [done|lia]|done]).
  - split; [|done]. split; [done|]. by intros [? _].
Qed.

Lemma validate_xcode_format_exact_witness :
  XcodeProjectFixer.validate_xcode_format "// !$*UTF8*$! {{ }"
  = (false, [UnbalancedBraces 1]).
Proof.
  apply (proj1 (proj2 (validate_xcode_format_exact "// !$*UTF8*$! {{ }"))).
  - reflexivity.
  - vm_compute. lia.
Defined.

(** X19. [validate_project_structure] passes exactly when the text holds
    the opening marker of each of the six required sections.  Otherwise it
    prints one line that lists the sections whose marker is missing, each
    once and in the order of the table. *)
Theorem validate_project_structure_exact (text : string) :
  ((XcodeProjectFixer.validate_project_structure text).1 = true
   ↔ ∀ section, section ∈ XcodeProjectFixer.required_sections
                → contains ("/* Begin " ++ section ++ " section */") text = true)
  ∧ ((XcodeProjectFixer.validate_project_structure text).1 = false
     → ∃ missing,
         (XcodeProjectFixer.validate_project_structure text).2
           = [MissingSections missing]
         ∧ missing ≠ []
         ∧ sublist missing XcodeProjectFixer.required_sections
         ∧ ∀ section,
             section ∈ missing
             ↔ section ∈ XcodeProjectFixer.required_sections
               ∧ contains ("/* Begin " ++ section ++ " section */") text = false).
Proof.
  unfold XcodeProjectFixer.validate_project_structure.
  set (absent := fun section : string =>
                   negb (contains ("/* Begin " ++ section ++ " section */") text)).
  assert (∀ section, section ∈ List.filter absent XcodeProjectFixer.required_sections
                     ↔ section ∈ XcodeProjectFixer.required_sections
                       ∧ contains ("/* Begin " ++ section ++ " section */") text
                         = false) as Hin.
  { intros section. rewrite !list_elem_of_In, filter_In. unfold absent.
    by rewrite negb_true_iff. }
  assert (sublist (List.filter absent XcodeProjectFixer.required_sections)
            XcodeProjectFixer.required_sections) as Hsub.
  { generalize XcodeProjectFixer.required_sections. intros l.
    induction l as [|x l IH]; [constructor|].
    cbn [List.filter]. destruct (absent x); by constructor. }
  destruct (List.filter absent XcodeProjectFixer.required_sections)
    as [|first others] eqn:Hfilter; cbn [fst snd].
  - split; [|done]. split; [|done]. intros _ section Hsection.
    destruct (contains _ text) eqn:Hfound; [done|].
    assert (section ∈ @nil string) as Hnil by (apply Hin; done).
    by apply elem_of_nil in Hnil.
  - split.
    + split; [done|]. intros Hall.
      assert (first ∈ first :: others) as Hfirst by (apply elem_of_cons; by left).
      apply Hin in Hfirst as [Hreq Habsent]. rewrite (Hall _ Hreq) in Habsent. done.
    + intros _. exists (first :: others). done.
Qed.

Lemma validate_project_structure_exact_witness :
  ∃ missing,
    (XcodeProjectFixer.validate_project_structure Samples.core_group).2
      = [MissingSections missing]
    ∧ missing ≠ [].
Proof.
  destruct (proj2 (validate_project_structure_exact Samples.core_group))
    as (missing & Hline & Hne & _); [vm_compute; reflexivity|].
  exists missing. split; [exact Hline|exact Hne].
Defined.

(** ** The guards of the replacements *)

Section Guards.

Lemma count_from_zero (p : string) :
  p ≠ "" → ∀ s k, count_from p k s = 0 → contains p (drop k s) = false.
Proof.
  intros Hne. induction s as [|c s IH]; intros k Hzero.
  - destruct p; [done|]. by destruct k.
  - destruct k as [|k]; cbn [count_from drop] in *; [|by apply IH].
    destruct (startswith p (String c s)) eqn:Hhere; [done|].
    cbn [contains]. rewrite Hhere. apply (IH 0) in Hzero.
    cbn [drop] in Hzero. by rewrite Hzero.
Qed.

Lemma count_zero_absent (p s : string) :
  p ≠ "" → (count p s = 0 ↔ contains p s = false).
Proof.
  intros Hne. split.
  - intros Hzero. apply (count_from_zero p Hne s 0) in Hzero.
    by destruct s.
  - unfold count. induction s as [|c s IH]; [done|].
    cbn [contains count_from]. intros [Hhere Hlater]%orb_false_elim.
    rewrite Hhere. by apply IH.
Qed.

End Guards.

(** X20. The tests that guard the replacements change no result, and
    the two forms of the test agree: [count] is zero exactly when the text
    does not contain the pattern.  A turn of either loop of
    [PreciseXcodeProjectFixer] on a key of the table returns what the
    unguarded [replace] returns, and so do the two removals of
    [fix_infoplist_conflict]. *)
Theorem replacement_guards_are_redundant (text : string) :
  (∀ pattern, pattern ≠ "" → (count pattern text = 0 ↔ contains pattern text = false))
  ∧ (∀ old new name,
        PreciseXcodeProjectFixer.group_name_of
          PreciseXcodeProjectFixer.collision_fixes old = Some name
        → PreciseXcodeProjectFixer.fix_group_definition text (old, new)
          = Some (replace (old ++ " /* " ++ name ++ " */ = {")
                          (new ++ " /* " ++ name ++ " */ = {") text)
          ∧ PreciseXcodeProjectFixer.fix_parent_reference text (old, new)
            = Some (replace (old ++ " /* " ++ name ++ " */")
                            (new ++ " /* " ++ name ++ " */") text))
  ∧ InfoPlist.remove_buildfile_entry text
    = replace InfoPlist.infoplist_buildfile_line "" text
  ∧ InfoPlist.remove_resource_entry text
    = replace InfoPlist.infoplist_resource_line "" text.
Proof.
  assert (∀ a b, a ++ " /* " ++ b ≠ "") as Hne.
  { intros a b Hempty%(f_equal String.length). revert Hempty.
    rewrite !length_append. cbn. lia. }
  split; [intros pattern; apply count_zero_absent|].
  split; [|split].
  - intros old new name Hname.
    unfold PreciseXcodeProjectFixer.fix_group_definition,
      PreciseXcodeProjectFixer.fix_parent_reference.
    cbn [fst snd]. rewrite Hname. split; f_equal.
    + destruct (contains _ text) eqn:Hin; [done|].
      symmetry. by apply replace_absent.
    + case_decide as Hcount; [done|].
      symmetry. apply replace_absent; [done|].
      apply count_zero_absent; [done|lia].
  - unfold InfoPlist.remove_buildfile_entry, InfoPlist.remove_line.
    destruct (contains _ text) eqn:Hin; [done|].
    symmetry. by apply replace_absent.
  - unfold InfoPlist.remove_resource_entry, InfoPlist.remove_line.
    destruct (contains _ text) eqn:Hin; [done|].
    symmetry. by apply replace_absent.
Qed.

Lemma replacement_guards_are_redundant_witness :
  PreciseXcodeProjectFixer.fix_group_definition Samples.two_linked_objects
    ("A1000001000000000000001A", "000102030405060708090A0B")
  = Some (replace ("A1000001000000000000001A" ++ " /* " ++ "Core" ++ " */ = {")
                  ("000102030405060708090A0B" ++ " /* " ++ "Core" ++ " */ = {")
                  Samples.two_linked_objects).
Proof.
  destruct (proj1 (proj2 (replacement_guards_are_redundant Samples.two_linked_objects))
              "A1000001000000000000001A" "000102030405060708090A0B" "Core" eq_refl)
    as [Hgroup _].
  exact Hgroup.
Defined.

(** ** The effect of a replacement *)

Section Effect.

Lemma startswith_self_app (a b : string) : startswith a (a ++ b) = true.
Proof.
  induction a as [|x a IH]; [done|].
  change (String x a ++ b) with (String x (a ++ b)). cbn [startswith].
  by case_decide.
Qed.

(** Where [old] occurs, the result of the replacement holds [new]. *)
Lemma replace_from_puts_new (old new : string) :
  old ≠ ""
  → ∀ s, contains old s = true → contains new (replace_from old new 0 s) = true.
Proof.
  intros Hne. induction s as [|c s IH].
  - cbn [contains]. rewrite orb_false_r. by destruct old.
  - cbn [contains replace_from].
    destruct (startswith old (String c s)) eqn:Hhere.
    + intros _. apply contains_here, startswith_self_app.
    + cbn [orb]. intros Hlater%IH. by apply contains_later.
Qed.

Lemma replace_first_head (old new s : string) :
  startswith old s = true
  → replace_first old new s = new ++ drop (String.length old) s ∨ s = "".
Proof. intros Hpre. destruct s as [|c s]; [by right|]. left. cbn. by rewrite Hpre. Qed.

End Effect.

(** X21. When [fix_group_definitions] of [XcodeProjectFixer] finds the
    group definition of a key, the text it leaves holds that definition
    under the new identifier: the header with the new identifier, the
    body that was matched, and the closing brace. *)
Theorem fix_group_definition_renames (text : string)
    (entry : string * XcodeProjectFixer.Replacement) (matched : string) :
  search_group_definition entry.1 text = Some matched
  → ∃ body,
      matched = (entry.1 ++ " = {") ++ body ++ "}"
      ∧ contains matched text = true
      ∧ contains ((XcodeProjectFixer.new_group_uuid entry.2 ++ " = {") ++ body ++ "}")
          (XcodeProjectFixer.fix_group_definition text entry) = true.
Proof.
  intros Hfound. unfold XcodeProjectFixer.fix_group_definition. rewrite Hfound.
  destruct (search_group_definition_shape _ _ _ Hfound) as (body & -> & Hin).
  exists body. split; [done|]. split; [done|].
  assert (replace_first entry.1 (XcodeProjectFixer.new_group_uuid entry.2)
            ((entry.1 ++ " = {") ++ body ++ "}")
          = (XcodeProjectFixer.new_group_uuid entry.2 ++ " = {") ++ body ++ "}")
    as ->.
  { rewrite !append_assoc.
    destruct (replace_first_head entry.1 (XcodeProjectFixer.new_group_uuid entry.2)
                (entry.1 ++ " = {" ++ body ++ "}")) as [->|Hempty].
    - apply startswith_self_app.
    - f_equal. generalize (" = {" ++ body ++ "}"). generalize entry.1. clear.
      intros a. induction a as [|x a IH]; intros b; [by destruct b|].
      change (String x a ++ b) with (String x (a ++ b)). cbn [String.length drop].
      apply IH.
    - apply (f_equal String.length) in Hempty. revert Hempty.
      rewrite !length_append. cbn. lia. }
  assert ((entry.1 ++ " = {") ++ body ++ "}" ≠ "") as Hne.
  { intros Hempty%(f_equal String.length). revert Hempty.
    rewrite !length_append. cbn. lia. }
  rewrite replace_nonempty by done. by apply replace_from_puts_new.
Qed.

Lemma fix_group_definition_renames_witness :
  ∃ body,
    contains (("000102030405060708090A0B" ++ " = {") ++ body ++ "}")
      (XcodeProjectFixer.fix_group_definition
         "A1000001000000000000001A = { isa = PBXGroup; };"
         ("A1000001000000000000001A",
          {| XcodeProjectFixer.old_uuid := "A1000001000000000000001A";
             XcodeProjectFixer.new_group_uuid := "000102030405060708090A0B";
             XcodeProjectFixer.group_name := "Core";
             XcodeProjectFixer.associated_file := "StreamApp.swift" |})) = true.
Proof.
  destruct (fix_group_definition_renames
              "A1000001000000000000001A = { isa = PBXGroup; };"
              ("A1000001000000000000001A",
               {| XcodeProjectFixer.old_uuid := "A1000001000000000000001A";
                  XcodeProjectFixer.new_group_uuid := "000102030405060708090A0B";
                  XcodeProjectFixer.group_name := "Core";
                  XcodeProjectFixer.associated_file := "StreamApp.swift" |})
              "A1000001000000000000001A = { isa = PBXGroup; }")
    as (body & _ & _ & Hnew); [vm_compute; reflexivity|].
  exists body. exact Hnew.
Defined.

(** ** The precise fixer: a failed load, and the loop that draws *)

(** X22. When [project.pbxproj] cannot be read, a run of
    [PreciseXcodeProjectFixer.fix_project] returns [False] after its
    rollback has written the empty snapshot over the file in place: the
    file is left as it was only when it cannot be opened for writing, and
    is empty otherwise. *)
Theorem precise_load_failure_empties_file (fuel : nat) (env : Env)
    (file tmp : option string) :
  read_fails env = true ∨ file = None
  → ∃ m',
      PreciseXcodeProjectFixer.fix_project fuel env
        (PreciseXcodeProjectFixer.start (boot file tmp)) = Return false m'
      ∧ saves (PreciseXcodeProjectFixer.world m') = 1
      ∧ pbxproj (PreciseXcodeProjectFixer.world m')
        = (if decide (write_outcomes env 0 = OpenFails) then file else Some "").
Proof.
  intros Hfail.
  unfold PreciseXcodeProjectFixer.fix_project, try_except.
  unfold bind at 1, PreciseXcodeProjectFixer.load_project.
  assert ((if read_fails env
           then Raise (PreciseXcodeProjectFixer.start (boot file tmp))
           else match pbxproj (PreciseXcodeProjectFixer.world
                                 (PreciseXcodeProjectFixer.start (boot file tmp))) with
                | Some text =>
                    Return tt
                      {| PreciseXcodeProjectFixer.self :=
                           {| PreciseXcodeProjectFixer.content := text;
                              PreciseXcodeProjectFixer.original_content := text |};
                         PreciseXcodeProjectFixer.world :=
                           PreciseXcodeProjectFixer.world
                             (PreciseXcodeProjectFixer.start (boot file tmp)) |}
                | None => Raise (PreciseXcodeProjectFixer.start (boot file tmp))
                end)
          = Raise (PreciseXcodeProjectFixer.start (boot file tmp))) as ->.
  { destruct Hfail as [->| ->]; [done|]. by destruct (read_fails env). }
  unfold PreciseXcodeProjectFixer.rollback, PreciseXcodeProjectFixer.set_content,
    PreciseXcodeProjectFixer.save_project, PreciseXcodeProjectFixer.ret,
    PreciseXcodeProjectFixer.start, bind.
  cbn [PreciseXcodeProjectFixer.self PreciseXcodeProjectFixer.world
       PreciseXcodeProjectFixer.content PreciseXcodeProjectFixer.original_content
       PreciseXcodeProjectFixer.init boot saves pbxproj].
  destruct (write_outcomes env 0) as [| |n]; cbn [write_file]; eexists;
    (split; [reflexivity|]); cbn; (split; [done|]); case_decide; try done.
  by destruct n.
Qed.

Lemma precise_load_failure_empties_file_witness :
  ∃ m',
    PreciseXcodeProjectFixer.fix_project 0 Samples.unreadable
      (PreciseXcodeProjectFixer.start (boot (Some Samples.core_group) None))
      = Return false m'
    ∧ pbxproj (PreciseXcodeProjectFixer.world m') = Some "".
Proof.
  destruct (precise_load_failure_empties_file 0 Samples.unreadable
              (Some Samples.core_group) None) as (m' & Hrun & _ & Hfile);
    [left; reflexivity|].
  exists m'. split; [exact Hrun|exact Hfile].
Defined.

Section Mint.

Variables (env : Env) (existing : gset string).

(** The first [k] identifiers drawn from [pos] are in [existing] and the
    next one is [new], which is not. *)
Let first_fresh (pos k : nat) (new : string) : Prop :=
  (∀ j u, j < k → draws env pos (S k) !! j = Some u → u ∈ existing)
  ∧ draws env pos (S k) !! k = Some new
  ∧ new ∉ existing.

Lemma mint_reaches (k : nat) : ∀ fuel pos new,
  k < fuel → first_fresh pos k new
  → PreciseXcodeProjectFixer.mint fuel env existing pos
    = Some (new, pos + 12 * (k + 1)).
Proof.
  induction k as [|k IH]; intros fuel pos new Hfuel (Hold & Hnew & Hfresh);
    (destruct fuel as [|fuel]; [lia|]);
    cbn [PreciseXcodeProjectFixer.mint]; cbn [draws] in Hold, Hnew;
    pose proof (generate_xcode_uuid_identifier env pos) as [_ Hpos];
    change (PreciseXcodeProjectFixer.generate_xcode_uuid env pos)
      with (XcodeProjectFixer.generate_xcode_uuid env pos);
    destruct (XcodeProjectFixer.generate_xcode_uuid env pos) as [u pos1];
    cbn [snd] in Hpos; subst pos1.
  - injection Hnew as ->. case_decide; [|done]. do 2 f_equal; lia.
  - case_decide as Hu.
    + exfalso. apply Hu, (Hold 0); [lia|done].
    + rewrite (IH fuel (pos + 12) new); [do 2 f_equal; lia|lia|].
      split; [|done]. intros j v Hj Hv. apply (Hold (S j)); [lia|done].
Qed.

Lemma mint_stops (fuel : nat) : ∀ pos new pos',
  PreciseXcodeProjectFixer.mint fuel env existing pos = Some (new, pos')
  → ∃ k, k < fuel ∧ pos' = pos + 12 * (k + 1) ∧ first_fresh pos k new.
Proof.
  induction fuel as [|fuel IH]; intros pos new pos' Hmint;
    cbn [PreciseXcodeProjectFixer.mint] in Hmint; [done|].
  pose proof (generate_xcode_uuid_identifier env pos) as [_ Hpos].
  unfold first_fresh.
  change (PreciseXcodeProjectFixer.generate_xcode_uuid env pos)
    with (XcodeProjectFixer.generate_xcode_uuid env pos) in Hmint.
  destruct (XcodeProjectFixer.generate_xcode_uuid env pos) as [u pos1] eqn:Hdraw.
  cbn [snd] in Hpos. subst pos1. case_decide as Hu.
  - exists 0. cbn [draws]. rewrite Hdraw. injection Hmint as <- <-.
    split; [lia|]. split; [lia|]. split; [intros j v Hj; lia|done].
  - apply IH in Hmint as (k & Hk & -> & Hold & Hnew & Hfresh).
    exists (S k). split; [lia|]. split; [lia|].
    cbn [draws]. rewrite Hdraw. split; [|done].
    intros [|j] v Hj Hv.
    + injection Hv as <-. by destruct (decide (u ∈ existing)).
    + apply (Hold j); [lia|exact Hv].
Qed.

End Mint.

(** X23. The [while True] loop of
    [PreciseXcodeProjectFixer.generate_replacement_uuids] returns the first
    identifier drawn that is not in [existing_uuids]: it returns [new]
    after [k + 1] draws, having consumed [12 * (k + 1)] bytes of entropy,
    exactly when the first [k] identifiers drawn are in the set and the
    next one is [new], which is not. *)
Theorem mint_returns_first_fresh (env : Env) (existing : gset string)
    (fuel pos : nat) (new : string) (pos' : nat) :
  PreciseXcodeProjectFixer.mint fuel env existing pos = Some (new, pos')
  ↔ ∃ k, k < fuel
         ∧ pos' = pos + 12 * (k + 1)
         ∧ (∀ j u, j < k → draws env pos (S k) !! j = Some u → u ∈ existing)
         ∧ draws env pos (S k) !! k = Some new
         ∧ new ∉ existing.
Proof.
  split.
  - apply mint_stops.
  - intros (k & Hk & -> & Hfirst). by apply mint_reaches.
Qed.

Lemma mint_returns_first_fresh_witness :
  PreciseXcodeProjectFixer.mint 1 (Samples.calm Samples.counting_bytes) ∅ 0
  = Some ("000102030405060708090A0B", 12).
Proof.
  apply (proj2 (mint_returns_first_fresh (Samples.calm Samples.counting_bytes) ∅
                  1 0 "000102030405060708090A0B" 12)).
  exists 0. split; [lia|]. split; [reflexivity|].
  split; [intros j u Hj; lia|]. split; [reflexivity|apply not_elem_of_empty].
Defined.

(** ** What a run can leave in the file *)




(** ** Matches do not overlap *)

Section Disjoint.

Lemma uuid_chars_length (n : nat) : ∀ s, uuid_chars n s = true → n ≤ String.length s.
Proof.
  induction n as [|n IH]; intros [|c s] Hs; cbn [String.length]; try lia; [done|].
  cbn [uuid_chars] in Hs. apply andb_prop in Hs as [_ Hs]. apply IH in Hs. lia.
Qed.

Lemma startswith_length (p : string) : ∀ s,
  startswith p s = true → String.length p ≤ String.length s.
Proof.
  induction p as [|a p IH]; intros [|c s] Hs; cbn [String.length]; try lia; [done|].
  cbn [startswith] in Hs. case_decide; [|done]. apply IH in Hs. lia.
Qed.

Lemma length_drop (k : nat) : ∀ s,
  k ≤ String.length s → String.length (drop k s) + k = String.length s.
Proof.
  induction k as [|k IH]; intros [|c s] Hk; cbn [String.length drop] in *; try lia.
  specialize (IH s). lia.
Qed.

Lemma findall_uuid_from_room (s : string) : ∀ k,
  24 * length (findall_uuid_from k s) + k ≤ String.length s
  ∨ findall_uuid_from k s = [].
Proof.
  induction s as [|c s IH]; intros k; [by right|].
  cbn [findall_uuid_from String.length]. destruct k as [|k].
  - destruct (uuid_chars 24 (String c s)) eqn:Hhex.
    + left. apply uuid_chars_length in Hhex. cbn [String.length] in Hhex.
      cbn [length]. destruct (IH 23) as [Hroom| ->]; [lia|cbn; lia].
    + destruct (IH 0) as [Hroom|Hnone]; [left; lia|by right].
  - destruct (IH k) as [Hroom|Hnone]; [left; lia|by right].
Qed.

Lemma findall_definition_from_room (s : string) : ∀ k,
  28 * length (findall_definition_from k s) + k ≤ String.length s
  ∨ findall_definition_from k s = [].
Proof.
  induction s as [|c s IH]; intros k; [by right|].
  cbn [findall_definition_from String.length]. destruct k as [|k].
  - destruct (uuid_chars 24 (String c s) && startswith " = {" (drop 24 (String c s)))
      eqn:Hhere.
    + left. apply andb_prop in Hhere as [Hhex Hbrace].
      apply uuid_chars_length in Hhex. apply startswith_length in Hbrace.
      pose proof (length_drop 24 (String c s) Hhex) as Hdrop.
      cbn [String.length] in Hhex, Hbrace, Hdrop.
      cbn [length]. destruct (IH 27) as [Hroom| ->]; [lia|cbn; lia].
    + destruct (IH 0) as [Hroom|Hnone]; [left; lia|by right].
  - destruct (IH k) as [Hroom|Hnone]; [left; lia|by right].
Qed.

End Disjoint.

(** X25. The matches of a scan do not overlap: a text holds at most one
    token for every 24 of its characters and at most one definition header
    for every 28.  So the number of tokens, and the number of distinct
    tokens, that [validate_uuid_uniqueness] compares are at most the
    length of the text divided by 24. *)
Theorem scans_do_not_overlap (text : string) :
  24 * length (findall_uuid text) ≤ String.length text
  ∧ 28 * length (findall_definition text) ≤ String.length text
  ∧ 24 * size (list_to_set (C := gset string) (findall_uuid text))
    ≤ String.length text.
Proof.
  assert (24 * length (findall_uuid text) ≤ String.length text) as Htokens.
  { unfold findall_uuid. destruct (findall_uuid_from_room text 0) as [?| ->];
      [lia|cbn; lia]. }
  split; [done|]. split.
  - unfold findall_definition.
    destruct (findall_definition_from_room text 0) as [?| ->]; [lia|cbn; lia].
  - pose proof (size_list_to_set_le (findall_uuid text)). lia.
Qed.

(** ** Only groups are renamed *)

Section Groups.

Lemma contains_drop (p : string) (k : nat) : ∀ x,
  contains p (drop k x) = true → contains p x = true.
Proof.
  induction k as [|k IH]; intros [|c x] Hin; try done.
  cbn [drop] in Hin. by apply contains_later, IH.
Qed.

Lemma startswith_take_inv (p : string) : ∀ k x,
  startswith p (take k x) = true → startswith p x = true.
Proof.
  induction p as [|a p IH]; intros k x Hpre; [by destruct x|].
  destruct k as [|k], x as [|c x]; try done.
  cbn [take startswith] in *. case_decide; [|done]. by eapply IH.
Qed.

Lemma contains_take (p : string) (k : nat) : ∀ x,
  contains p (take k x) = true → contains p x = true.
Proof.
  induction k as [|k IH]; intros x Hin.
  - assert (take 0 x = "") as Hnil by (by destruct x). rewrite Hnil in Hin.
    cbn [contains] in Hin. rewrite orb_false_r in Hin.
    destruct p; [|done]. by apply contains_here.
  - destruct x as [|c x]; [done|]. cbn [take contains] in Hin.
    apply orb_prop in Hin as [Hhere|Hlater].
    + apply contains_here. by apply (startswith_take_inv p (S k) (String c x)).
    + by apply contains_later, IH.
Qed.

Lemma startswith_app_weaken (p : string) : ∀ a b,
  startswith p a = true → startswith p (a ++ b) = true.
Proof.
  induction p as [|x p IH]; intros a b Hpre; [by destruct (a ++ b)|].
  destruct a as [|c a]; [done|].
  change (String c a ++ b) with (String c (a ++ b)). cbn [startswith] in *.
  case_decide; [|done]. by apply IH.
Qed.

Lemma contains_app_weaken_l (p a b : string) :
  contains p a = true → contains p (a ++ b) = true.
Proof.
  induction a as [|c a IH]; cbn [contains].
  - rewrite orb_false_r. intros Hpre. destruct p; [|done]. by apply contains_here.
  - change (String c a ++ b) with (String c (a ++ b)).
    intros [Hhere|Hlater]%orb_prop.
    + by apply contains_here, (startswith_app_weaken p (String c a) b).
    + by apply contains_later, IH.
Qed.

Lemma contains_app_weaken_r (p a b : string) :
  contains p b = true → contains p (a ++ b) = true.
Proof.
  intros Hin. induction a as [|c a IH]; [done|].
  change (String c a ++ b) with (String c (a ++ b)). by apply contains_later.
Qed.

Lemma contains_trans (p m : string) : ∀ s,
  contains p m = true → contains m s = true → contains p s = true.
Proof.
  intros s Hpm. induction s as [|c s IH]; intros Hms.
  - cbn [contains] in Hms. rewrite orb_false_r in Hms.
    destruct m; [|done]. exact Hpm.
  - cbn [contains] in Hms. apply orb_prop in Hms as [Hhere|Hlater].
    + rewrite (startswith_split _ _ Hhere). by apply contains_app_weaken_l.
    + by apply contains_later, IH.
Qed.

Lemma group_definition_at_is_group (old s matched : string) :
  group_definition_at old s = Some matched
  → contains "isa = PBXGroup" matched = true.
Proof.
  unfold group_definition_at. intros Hat.
  destruct (startswith (old ++ " = {") s); [|done].
  destruct (span_until _ _) as [[body rest]|]; [|done].
  destruct (contains _ (drop 1 _)) eqn:Hisa; [|done].
  injection Hat as <-.
  apply contains_app_weaken_r, contains_app_weaken_l.
  by eapply contains_take, contains_drop.
Qed.

Lemma search_group_definition_is_group (old : string) : ∀ s matched,
  search_group_definition old s = Some matched
  → contains "isa = PBXGroup" matched = true.
Proof.
  induction s as [|c s IH]; intros matched Hfound;
    cbn [search_group_definition] in Hfound;
    destruct (group_definition_at old _) as [m|] eqn:Hat; try done.
  - injection Hfound as ->. by eapply group_definition_at_is_group.
  - injection Hfound as ->. by eapply group_definition_at_is_group.
  - by eapply IH.
Qed.

End Groups.

(** X26. [fix_group_definitions] of [XcodeProjectFixer] renames
    definitions of groups only: the text it matches holds
    [isa = PBXGroup], and on a document that does not hold
    [isa = PBXGroup] a turn of the loop returns the text as it is, for
    every entry of the replacement map. *)
Theorem only_groups_are_renamed (text : string)
    (entry : string * XcodeProjectFixer.Replacement) :
  (∀ matched, search_group_definition entry.1 text = Some matched
              → contains "isa = PBXGroup" matched = true
                ∧ contains "isa = PBXGroup" text = true)
  ∧ (contains "isa = PBXGroup" text = false
     → XcodeProjectFixer.fix_group_definition text entry = text).
Proof.
  assert (∀ matched, search_group_definition entry.1 text = Some matched
                     → contains "isa = PBXGroup" matched = true
                       ∧ contains "isa = PBXGroup" text = true) as Hgroup.
  { intros matched Hfound.
    pose proof (search_group_definition_is_group _ _ _ Hfound) as Hisa.
    split; [done|].
    apply search_group_definition_shape in Hfound as (body & _ & Hin).
    by eapply contains_trans. }
  split; [done|]. intros Hnone.
  unfold XcodeProjectFixer.fix_group_definition.
  destruct (search_group_definition entry.1 text) as [matched|] eqn:Hfound; [|done].
  destruct (Hgroup matched eq_refl) as [_ Hin]. congruence.
Qed.

Lemma only_groups_are_renamed_witness :
  XcodeProjectFixer.fix_group_definition Samples.two_linked_objects
    ("AAAAAAAAAAAAAAAAAAAAAAAA",
     {| XcodeProjectFixer.old_uuid := "AAAAAAAAAAAAAAAAAAAAAAAA";
        XcodeProjectFixer.new_group_uuid := "000102030405060708090A0B";
        XcodeProjectFixer.group_name := "Core";
        XcodeProjectFixer.associated_file := "StreamApp.swift" |})
  = Samples.two_linked_objects.
Proof.
  apply (proj2 (only_groups_are_renamed Samples.two_linked_objects _)).
  vm_compute. reflexivity.
Defined.
